(** * local-llm-observability: the translation pipeline, embedded and verified

    Shallow embedding of [src/translation_agent.py], [src/monitor_agent.py]
    and the processing loop of [src/main.py].

    - Python [str] values are lists of Unicode code points.
    - The model server (ollama), the database driver (psycopg2), the clock
      and the file system are outside the program: each call is recorded in
      a trace and answered by an oracle that sees the whole history, so a
      statement quantified over the oracles covers every behaviour of the
      outside world, exceptions included.
    - Python exceptions are an explicit [Raise] outcome; state changes made
      before an exception stay, as in Python. *)

From Stdlib Require Import Ascii String.
From Stdlib Require Import List NArith ZArith QArith Bool Lia.
Import ListNotations.

Close Scope Q_scope.
Open Scope nat_scope.
Set Implicit Arguments.

(* ================================================================== *)
(** * Text *)
(* ================================================================== *)

Module Text.

(** A code point, and a Python [str]. *)
Definition char := N.
Definition str := list char.

(** Source literals are written as UTF-8 string literals and decoded. *)
Fixpoint utf8_decode (bs : list N) (need : nat) (acc : N) : str :=
  match bs with
  | [] => []
  | b :: bs' =>
    match need with
    | S k =>
      let acc' := (acc * 64 + b mod 64)%N in
      match k with
      | O => acc' :: utf8_decode bs' 0 0%N
      | S _ => utf8_decode bs' k acc'
      end
    | O =>
      if (b <? 128)%N then b :: utf8_decode bs' 0 0%N
      else if (b <? 224)%N then utf8_decode bs' 1 (b mod 32)%N
      else if (b <? 240)%N then utf8_decode bs' 2 (b mod 16)%N
      else utf8_decode bs' 3 (b mod 8)%N
    end
  end.

Definition lit (s : string) : str :=
  utf8_decode (map N_of_ascii (list_ascii_of_string s)) 0 0%N.

Definition dquote : char := 34%N.
Definition squote : char := 39%N.
Definition newline : char := 10%N.

Definition char_eqb (a b : char) : bool := N.eqb a b.

Fixpoint str_eqb (a b : str) : bool :=
  match a, b with
  | [], [] => true
  | x :: a', y :: b' => char_eqb x y && str_eqb a' b'
  | _, _ => false
  end.

(** [s.startswith(p)] *)
Fixpoint startswith (p s : str) : bool :=
  match p, s with
  | [], _ => true
  | x :: p', y :: s' => char_eqb x y && startswith p' s'
  | _ :: _, [] => false
  end.

(** [s.find(sub)]: offset of the first occurrence, [None] for Python's -1. *)
Fixpoint find (sub s : str) : option nat :=
  if startswith sub s then Some 0
  else match s with
       | [] => None
       | _ :: s' => option_map S (find sub s')
       end.

(** [sub in s] *)
Definition contains (sub s : str) : bool :=
  match find sub s with Some _ => true | None => false end.

(** [s.split(sep, maxsplit)] for a non-empty [sep] and [maxsplit >= 0]:
    cut at the first [maxsplit] occurrences, scanning from the left, each
    scan resuming after the separator just found. *)
Fixpoint split (sep : str) (maxsplit : nat) (s : str) : list str :=
  match maxsplit with
  | O => [s]
  | S n =>
    match find sep s with
    | None => [s]
    | Some i => firstn i s :: split sep n (skipn (i + length sep) s)
    end
  end.

(** [s.replace(old, new)]: every occurrence found by a left-to-right scan
    that resumes after each replaced occurrence. The scan makes at most
    [length s] replacements when [old] is not empty ([replace_scan_enough]
    below); an empty [old] matches between any two characters. *)
Fixpoint replace_scan (fuel : nat) (old new s : str) : str :=
  match fuel with
  | O => s
  | S f =>
    match find old s with
    | None => s
    | Some i => firstn i s ++ new ++ replace_scan f old new (skipn (i + length old) s)
    end
  end.

Definition replace (old new s : str) : str :=
  match old with
  | [] => new ++ flat_map (fun c => c :: new) s
  | _ :: _ => replace_scan (length s) old new s
  end.

(** Unicode white space, as [str.isspace], [str.strip()] and [\s] in a
    [str] pattern see it. *)
Definition isspace (c : char) : bool :=
  ((9 <=? c) && (c <=? 13) || (28 <=? c) && (c <=? 32) ||
   (c =? 133) || (c =? 160) || (c =? 5760) ||
   (8192 <=? c) && (c <=? 8202) || (c =? 8232) || (c =? 8233) ||
   (c =? 8239) || (c =? 8287) || (c =? 12288))%N.

Fixpoint lstrip (s : str) : str :=
  match s with
  | c :: s' => if isspace c then lstrip s' else s
  | [] => []
  end.

Definition rstrip (s : str) : str := rev (lstrip (rev s)).

(** [s.strip()] *)
Definition strip (s : str) : str := rstrip (lstrip s).

(** [s.lower()] on the ASCII letters; the program applies it to the
    language codes "EN" and "JP" only. *)
Definition lower_char (c : char) : char :=
  if ((65 <=? c) && (c <=? 90))%N then (c + 32)%N else c.
Definition lower (s : str) : str := map lower_char s.

(** [sep.join(parts)] *)
Fixpoint join (sep : str) (parts : list str) : str :=
  match parts with
  | [] => []
  | [p] => p
  | p :: rest => p ++ sep ++ join sep rest
  end.

End Text.
Import Text.

Declare Scope py_scope.
Delimit Scope py_scope with py.
Notation "` s" := (lit s) (at level 1, s at level 0, format "` s") : py_scope.
Open Scope py_scope.
Open Scope list_scope.

(* ================================================================== *)
(** * Regular expressions: the fragment of [re] the program uses *)
(* ================================================================== *)

Module Re.

(** One character of a class, or a starred class, greedy ([*]) or lazy
    ([*?]). Literal characters are singleton classes. *)
Inductive atom :=
| One (p : char -> bool)
| Star (greedy : bool) (p : char -> bool).

Definition literal (s : str) : list atom := map (fun c => One (char_eqb c)) s.

Definition push (c : char) (r : option (list str)) : option (list str) :=
  option_map (fun l => match l with x :: t => (c :: x) :: t | [] => [[c]] end) r.

(** Backtracking match of a sequence of atoms at the start of [s], in the
    priority order of Python's matcher: a greedy star tries the longest run
    first, a lazy star the shortest. The result lists what each atom
    consumed. *)
Fixpoint match_here (r : list atom) (s : str) : option (list str) :=
  match r with
  | [] => Some []
  | One p :: r' =>
    match s with
    | c :: s' => if p c then option_map (cons [c]) (match_here r' s') else None
    | [] => None
    end
  | Star greedy p :: r' =>
    let stop s := option_map (cons []) (match_here r' s) in
    (fix star (s : str) : option (list str) :=
       match s with
       | c :: s' =>
         if p c then
           if greedy
           then match push c (star s') with Some m => Some m | None => stop s end
           else match stop s with Some m => Some m | None => push c (star s') end
         else stop s
       | [] => stop []
       end) s
  end.

(** A pattern with one capture group. *)
Record pattern := { before : list atom; group : list atom; after : list atom }.

Definition atoms (p : pattern) : list atom := before p ++ group p ++ after p.

(** A match object: where the match starts and what each atom consumed. *)
Record match_obj := { m_start : nat; m_parts : list str }.

(** [m.group(1)] and [m.start(1)] *)
Definition group1 (p : pattern) (m : match_obj) : str :=
  concat (firstn (length (group p)) (skipn (length (before p)) (m_parts m))).
Definition start1 (p : pattern) (m : match_obj) : nat :=
  m_start m + length (concat (firstn (length (before p)) (m_parts m))).

Fixpoint search_from (r : list atom) (s : str) (pos : nat) : option match_obj :=
  match match_here r s with
  | Some parts => Some {| m_start := pos; m_parts := parts |}
  | None =>
    match s with
    | [] => None
    | _ :: s' => search_from r s' (S pos)
    end
  end.

(** [re.search(p, s)]: the match at the leftmost position that has one. *)
Definition search (p : pattern) (s : str) : option match_obj :=
  search_from (atoms p) s 0.

Definition is_quote (c : char) : bool := char_eqb c squote || char_eqb c dquote.
(** [.] without DOTALL *)
Definition dot (c : char) : bool := negb (char_eqb c newline).

End Re.
Import Re.

(** [r"title:\s*['\"](.*?)['\"]"] *)
Definition title_re : pattern :=
  {| before := literal `"title:" ++ [Star true isspace; One is_quote];
     group := [Star false dot];
     after := [One is_quote] |}.

(** [r"description:\s*['\"](.*?)['\"]"] *)
Definition description_re : pattern :=
  {| before := literal `"description:" ++ [Star true isspace; One is_quote];
     group := [Star false dot];
     after := [One is_quote] |}.

(** [r"tags:\s*(\[.*?\])"] *)
Definition tags_re : pattern :=
  {| before := literal `"tags:" ++ [Star true isspace];
     group := literal `"[" ++ [Star false dot] ++ literal `"]";
     after := [] |}.

(* ================================================================== *)
(** * Paths: [pathlib.Path] on a POSIX system *)
(* ================================================================== *)

Module Pathlib.

(** A parsed path: the root ("", "/" or "//") and the components. *)
Record Path := { root : str; parts : list str }.

Definition is_component (p : str) : bool :=
  negb (str_eqb p [] || str_eqb p `".").

(** [Path(s)] *)
Definition parse (s : str) : Path :=
  {| root := if startswith `"//" s && negb (startswith `"///" s) then `"//"
             else if startswith `"/" s then `"/" else [];
     parts := filter is_component (split `"/" (length s) s) |}.

(** [str(path)] *)
Definition to_str (p : Path) : str :=
  match root p, parts p with
  | [], [] => `"."
  | r, ps => r ++ join `"/" ps
  end.

(** [path.name] *)
Definition name (p : Path) : str := last (parts p) [].

(** [path.parent] *)
Definition parent (p : Path) : Path :=
  {| root := root p; parts := removelast (parts p) |}.

(** [path / key] *)
Definition joinpath (p : Path) (key : str) : Path :=
  if startswith `"/" key then parse key
  else {| root := root p; parts := parts p ++ parts (parse key) |}.

End Pathlib.
Import Pathlib.

(* ================================================================== *)
(** * The outside world and the effects of the program *)
(* ================================================================== *)

Module World.

(** What [raise] carries: an [Exception] (with its [str(e)]) is what
    [except Exception] catches; [KeyboardInterrupt] is not one. *)
Inductive exc :=
| Exception (msg : str)
| KeyboardInterrupt.

Inductive outcome (A : Type) :=
| Return (a : A)
| Raise (e : exc).
Arguments Raise {A} e.

(** A printed line: text, an integer, or a number shown as [:.2f]. *)
Inductive frag :=
| T (s : str)
| D (n : nat)
| F2 (q : Q).

(** The reply of [ollama.chat]: [response['message']['content']], and
    what [response.get(key, 0)] gives for each of the two counters: an
    integer (on a plain dict without the key, the default 0), or [None]
    where the reply object of the client holds the counter unset. *)
Record response := {
  content : str;
  eval_duration : option Z;
  eval_count : option Z }.

(** The parameters of the INSERT into [translation_logs]. *)
Record log_row := {
  model_name : str;
  source_lang : str;
  target_lang : str;
  input_length : nat;
  output_length : nat;
  latency_ms : Q;
  tokens_per_sec : Q;
  similarity_score : Q;
  input_text : str;
  output_text : str }.

(** Every interaction with the outside, in the order the program makes
    them; the trace keeps the newest event first. *)
Inductive event :=
| Stdout (line : list frag)
| Clock
| Chat (model system user : str)
| Generate (model : str)
| Connect
| Insert (row : log_row)
| Rollback
| Close
| Exists (path : str)
| ReadFile (path : str)
| Mkdir (path : str)
| WriteFile (path content : str).

(** The outside world answers each call from the history so far (the
    call itself is its newest event). *)
Record externals := {
  time_time : list event -> Q;
  ollama_chat : list event -> outcome response;
  ollama_generate : list event -> outcome unit;
  psycopg2_connect : list event -> outcome unit;
  (** [cursor()], [execute(query, row)], [commit()] and the cursor's exit *)
  conn_insert : list event -> outcome unit;
  conn_rollback : list event -> outcome unit;
  conn_close : list event -> outcome unit;
  path_exists : list event -> bool;
  read_text : list event -> outcome str;
  mkdir : list event -> outcome unit;
  (** [open(path, 'w')], [f.write(content)] and the file's exit: when it
      raises, the file may be left empty or partly written *)
  write_text : list event -> outcome unit }.

(** The program's own state: the trace, and whether the monitor's
    [self.conn] holds a connection object ([false] is [None]). *)
Record state := { trace : list event; conn : bool }.

Definition M (A : Type) : Type := state -> outcome A * state.

Definition ret {A} (a : A) : M A := fun st => (Return a, st).

Definition raise {A} (e : exc) : M A := fun st => (Raise e, st).

Definition bind {A B} (m : M A) (k : A -> M B) : M B :=
  fun st =>
    match m st with
    | (Return a, st') => k a st'
    | (Raise e, st') => (Raise e, st')
    end.

(** [try: body / except Exception as e: handler(str(e))] *)
Definition try_except {A} (body : M A) (handler : str -> M A) : M A :=
  fun st =>
    match body st with
    | (Raise (Exception msg), st') => handler msg st'
    | r => r
    end.

(** [try: body / except KeyboardInterrupt: handler] *)
Definition try_interrupt {A} (body : M A) (handler : M A) : M A :=
  fun st =>
    match body st with
    | (Raise KeyboardInterrupt, st') => handler st'
    | r => r
    end.

(** [try: body / finally: final] *)
Definition try_finally {A} (body : M A) (final : M unit) : M A :=
  fun st =>
    match body st with
    | (r, st') =>
      match final st' with
      | (Return _, st'') => (r, st'')
      | (Raise e, st'') => (Raise e, st'')
      end
    end.

Definition record (e : event) (st : state) : state :=
  {| trace := e :: trace st; conn := conn st |}.

(** A call that may raise, and one that cannot. *)
Definition call {A} (e : event) (oracle : list event -> outcome A) : M A :=
  fun st => (oracle (e :: trace st), record e st).

Definition ask {A} (e : event) (oracle : list event -> A) : M A :=
  fun st => (Return (oracle (e :: trace st)), record e st).

Definition print (line : list frag) : M unit :=
  fun st => (Return tt, record (Stdout line) st).

Definition get_conn : M bool := fun st => (Return (conn st), st).

Definition set_conn (c : bool) : M unit :=
  fun st => (Return tt, {| trace := trace st; conn := c |}).

End World.
Import World.

Declare Scope monad_scope.
Delimit Scope monad_scope with monad.
Notation "x <- c1 ;; c2" := (bind c1 (fun x => c2))
  (at level 61, c1 at next level, right associativity) : monad_scope.
Notation "c1 ;; c2" := (bind c1 (fun _ => c2))
  (at level 61, right associativity) : monad_scope.
Open Scope monad_scope.

(** [for x in xs: body(x)] *)
Fixpoint for_each {A} (xs : list A) (body : A -> M unit) : M unit :=
  match xs with
  | [] => ret tt
  | x :: xs' => body x ;; for_each xs' body
  end.

(** [d.get(key, default)] on a dict literal *)
Fixpoint dict_get (d : list (str * str)) (key default : str) : str :=
  match d with
  | [] => default
  | (k, v) :: d' => if str_eqb k key then v else dict_get d' key default
  end.

(* ================================================================== *)
(** * translation_agent.py: configuration *)
(* ================================================================== *)

Definition PROMPT_EN : str :=
  join [newline]
   [[];
    `"    You are a skilled Tech Blog Translator. ";
    `"    Translate the Korean text into natural, professional English for a developer audience.";
    [];
    `"    [Critical Rules]";
    `"    1. **Tone**: Casual but professional (DevLog style). Use " ++ [dquote] ++ `"I" ++ [dquote] ++ `" for the first person.";
    `"    2. **Technical Terms**: Keep terms like 'Local LLM', 'vscode', 'commit & push', 'terminal' in English.";
    `"    3. **Tags Handling**: If the input is a list of tags (e.g., ['A', 'B']), translate the words inside but KEEP the ['...'] format strictly.";
    `"    4. **Formatting**: Preserve all Markdown formatting.";
    `"    "].

Definition PROMPT_JP : str :=
  join [newline]
   [[];
    `"    あなたはプロの技術ブロガーです。韓国語の技術ブログを日本のエンジニア向けに自然な日本語へ翻訳してください。";
    [];
    `"    [Critical Rules]";
    `"    1. **Tone**: Polite but technical (「です・ます」調).";
    `"    2. **Technical Terms**: Use standard Katakana or English (e.g., Local LLM, vscode).";
    `"    3. **Tags Handling**: If the input is a list of tags (e.g., ['A', 'B']), translate the words inside but KEEP the ['...'] format strictly.";
    `"    4. **Formatting**: Markdownの形式を崩さないでください。";
    `"    "].

Definition SYSTEM_PROMPTS : list (str * str) :=
  [(`"EN", PROMPT_EN); (`"JP", PROMPT_JP)].

Definition MODELS : list (str * str) :=
  [(`"EN", `"gemma2:9b"); (`"JP", `"qwen2.5:7b")].

(** The two instructions [_call_llm] appends to the base prompt. *)
Definition TAGS_INSTRUCTION : str :=
  [newline] ++ `"IMPORTANT: The input is a list of tags. Translate the terms but output ONLY the Python-style list format: ['Tag1', 'Tag2']. Do not explain.".

Definition METADATA_INSTRUCTION : str :=
  [newline] ++ `"Translate this short metadata text accurately. Keep it concise.".

(** [model_name] and [system_prompt] as [_call_llm] computes them
    (lines 45-52). *)
Definition model_name_for (target_lang : str) : str :=
  dict_get MODELS target_lang `"gemma2:9b".

Definition system_prompt_for (target_lang : str) (is_metadata is_tags : bool) : str :=
  let system_prompt := dict_get SYSTEM_PROMPTS target_lang [] in
  if is_tags then system_prompt ++ TAGS_INSTRUCTION
  else if is_metadata then system_prompt ++ METADATA_INSTRUCTION
  else system_prompt.

(** The role shown in the [Inference] line. *)
Definition role_label (is_metadata is_tags : bool) : str :=
  if is_tags then `"Tags" else if is_metadata then `"Metadata" else `"Body".

(** [f"'{s}'"] *)
Definition quoted (s : str) : str := [squote] ++ s ++ [squote].

(** [final_content] of [process_file] (line 152). *)
Definition final_content (translated_frontmatter translated_body : str) : str :=
  `"---" ++ translated_frontmatter ++ `"---" ++ [newline; newline]
    ++ translated_body ++ [newline].

(** [target_path_str] of [process_file] (lines 154-157). *)
Definition target_path_str (path : Path) (lang : str) : str :=
  if contains `"/ko/" (to_str path)
  then replace `"/ko/" (`"/" ++ lower lang ++ `"/") (to_str path)
  else to_str (joinpath (joinpath (parent path) (lower lang)) (name path)).

(** The split of [process_file] (lines 136-144): the frontmatter, the
    body, and whether the warning is printed. *)
Definition split_frontmatter (content : str) : str * str * bool :=
  let parts := split `"---" 2 content in
  if length parts <? 3 then ([], content, true)
  else (nth 1 parts [], nth 2 parts [], false).

(* ================================================================== *)
(** * The program *)
(* ================================================================== *)

Section Program.

Variable ext : externals.

(** ** monitor_agent.py *)

Definition _connect : M unit :=
  try_except
    (call Connect (psycopg2_connect ext) ;; set_conn true)
    (fun e => print [T `"[Monitor Error] DB Connection failed: "; T e]).

(** [MLOpsMonitor()] *)
Definition MLOpsMonitor_init : M unit :=
  set_conn false ;; _connect.

Definition log_inference (model src_lang tgt_lang input_text output_text : str)
    (latency tps score : Q) : M unit :=
  let insert :=
    try_except
      (call (Insert {| model_name := model; source_lang := src_lang;
                       target_lang := tgt_lang;
                       input_length := length input_text;
                       output_length := length output_text;
                       latency_ms := latency; tokens_per_sec := tps;
                       similarity_score := score;
                       input_text := input_text; output_text := output_text |})
            (conn_insert ext) ;;
       print [T `"   [DB Log] Saved: "; T model; T `" | "; F2 latency; T `"ms | ";
              F2 tps; T `" TPS"])
      (fun e =>
         print [T `"[Monitor Error] Failed to insert log: "; T e] ;;
         call Rollback (conn_rollback ext)) in
  c <- get_conn ;;
  if c then insert
  else
    _connect ;;
    c' <- get_conn ;;
    if c' then insert else ret tt.

(** [MLOpsMonitor.close] *)
Definition close : M unit :=
  c <- get_conn ;;
  if c then call Close (conn_close ext) else ret tt.

(** ** translation_agent.py *)

(** Python's [/]: ZeroDivisionError on a zero divisor. *)
Definition truediv (a b : Q) : M Q :=
  if Qeq_bool b 0 then raise (Exception `"float division by zero")
  else ret (a / b)%Q.

(** [tps] of [_call_llm] (lines 71-73). Comparing [None] with 0 and
    dividing [None] raise TypeError. *)
Definition tps (r : response) : M Q :=
  match eval_duration r with
  | Some eval_duration =>
    if (0 <? eval_duration)%Z
    then seconds <- truediv (inject_Z eval_duration) (inject_Z (10 ^ 9)) ;;
         match eval_count r with
         | Some eval_count => truediv (inject_Z eval_count) seconds
         | None =>
           raise (Exception `"unsupported operand type(s) for /: 'NoneType' and 'float'")
         end
    else ret 0%Q
  | None =>
    raise (Exception `"'>' not supported between instances of 'NoneType' and 'int'")
  end.

Definition _call_llm (text target_lang : str) (is_metadata is_tags : bool) : M str :=
  let model_name := model_name_for target_lang in
  let system_prompt := system_prompt_for target_lang is_metadata is_tags in
  print [T `"   [Inference] "; T model_name; T `" -> "; T target_lang; T `" (";
         T (role_label is_metadata is_tags); T `")..."] ;;
  start_time <- ask Clock (time_time ext) ;;
  response <- call (Chat model_name system_prompt text) (ollama_chat ext) ;;
  end_time <- ask Clock (time_time ext) ;;
  let result_text := strip (content response) in
  let result_text :=
    if is_tags then strip (replace `"```" [] (replace `"```json" [] result_text))
    else result_text in
  let latency_ms := ((end_time - start_time) * 1000)%Q in
  tps <- tps response ;;
  log_inference model_name `"KO" target_lang text result_text latency_ms tps (95 # 100) ;;
  call (Generate model_name) (ollama_generate ext) ;;
  ret result_text.

Definition _translate_frontmatter (raw_frontmatter target_lang : str) : M str :=
  let new_frontmatter := raw_frontmatter in
  (* 1. title *)
  new_frontmatter <-
    match search title_re raw_frontmatter with
    | Some title_match =>
      let original_title := group1 title_re title_match in
      translated_title <- _call_llm original_title target_lang true false ;;
      ret (replace (quoted original_title) (quoted translated_title) new_frontmatter)
    | None => ret new_frontmatter
    end ;;
  (* 2. description *)
  new_frontmatter <-
    match search description_re raw_frontmatter with
    | Some desc_match =>
      let original_desc := group1 description_re desc_match in
      translated_desc <- _call_llm original_desc target_lang true false ;;
      ret (replace (quoted original_desc) (quoted translated_desc) new_frontmatter)
    | None => ret new_frontmatter
    end ;;
  (* 3. tags *)
  match search tags_re raw_frontmatter with
  | Some tags_match =>
    let original_tags_str := group1 tags_re tags_match in
    translated_tags_str <- _call_llm original_tags_str target_lang false true ;;
    if contains `"[" translated_tags_str && contains `"]" translated_tags_str
    then ret (replace original_tags_str translated_tags_str new_frontmatter)
    else
      print [T `"   [Warning] Tags translation format error. Keeping original tags."] ;;
      ret new_frontmatter
  | None => ret new_frontmatter
  end.

(** One round of the loop of [process_file] (lines 147-165). *)
Definition translate_to (path : Path) (frontmatter body lang : str) : M unit :=
  print [T ([newline] ++ `"--- Starting "); T lang; T `" Translation ---"] ;;
  translated_frontmatter <-
    (match frontmatter with
     | _ :: _ => _translate_frontmatter frontmatter lang
     | [] => ret []
     end) ;;
  translated_body <- _call_llm (strip body) lang false false ;;
  let final_content := final_content translated_frontmatter translated_body in
  let target_path := parse (target_path_str path lang) in
  call (Mkdir (to_str (parent target_path))) (mkdir ext) ;;
  call (WriteFile (to_str target_path) final_content) (write_text ext) ;;
  print [T `"[Saved] "; T (to_str target_path)].

Definition LANGS : list str := [`"EN"; `"JP"].

Definition process_file (file_path_str : str) : M unit :=
  let path := parse file_path_str in
  found <- ask (Exists (to_str path)) (path_exists ext) ;;
  if negb found then print [T `"[Error] File not found: "; T (to_str path)]
  else
    print [T `"Processing Post: "; T (name path)] ;;
    content <- call (ReadFile (to_str path)) (read_text ext) ;;
    let '(frontmatter, body, warn) := split_frontmatter content in
    (if warn
     then print [T `"[Warning] No Frontmatter detected. Translating entire content."]
     else ret tt) ;;
    for_each LANGS (translate_to path frontmatter body).

(** ** main.py: [main], from the list that [get_files_to_process] returns.
    Argument parsing, file selection and the progress bar are not
    modelled. *)
Definition process_files (files_to_process : list Path) : M unit :=
  for_each files_to_process (fun file_path =>
    try_except
      (process_file (to_str file_path))
      (fun e => print [T ([newline] ++ `"[ERROR] processing "); T (name file_path);
                       T `": "; T e])).

Definition main (files_to_process : list Path) : M unit :=
  MLOpsMonitor_init ;;
  try_finally
    (try_interrupt
       (match files_to_process with
        | [] => print [T `"[INFO] No files to process."]
        | _ :: _ =>
          print [T ([newline] ++ `"[INFO] Starting Processing for ");
                 D (length files_to_process); T `" file(s)..."] ;;
          process_files files_to_process
        end)
       (print [T ([newline] ++ `"[INFO] Stopped by user.")]))
    (close ;; print [T ([newline] ++ `"[INFO] Done.")]).

End Program.

(* ================================================================== *)
(** * Vocabulary of the statements *)
(* ================================================================== *)

(** [sub] occurs in [s] at offset [i]. *)
Definition occurs_at (sub s : str) (i : nat) : Prop :=
  startswith sub (skipn i s) = true.

(** The first occurrence of [sub] in [s] at or after [from] is at [i]. *)
Definition next_occurrence (sub s : str) (from i : nat) : Prop :=
  from <= i /\ occurs_at sub s i /\
  forall k, from <= k -> k < i -> ~ occurs_at sub s k.

(** The white space before and after the text of a body. *)
Definition spacing_before (body : str) : str :=
  firstn (length body - length (lstrip body)) body.
Definition spacing_after (body : str) : str :=
  skipn (length (rstrip body)) body.

(** What a trace shows: the (model, system prompt) of each inference
    request, the text of each request, and each attempt to write a file
    (the path opened and the content handed to [f.write]), whether it
    returned or raised. *)
Definition chat_requests (tr : list event) : list (str * str) :=
  flat_map (fun e => match e with Chat m s _ => [(m, s)] | _ => [] end) tr.
Definition chat_inputs (tr : list event) : list (str * str) :=
  flat_map (fun e => match e with Chat m _ u => [(m, u)] | _ => [] end) tr.
Definition writes (tr : list event) : list (str * str) :=
  flat_map (fun e => match e with WriteFile p c => [(p, c)] | _ => [] end) tr.

(** Every event a computation adds to the trace satisfies [P]. *)
Definition emits {A} (P : event -> Prop) (m : M A) : Prop :=
  forall st, exists new, trace (snd (m st)) = new ++ trace st /\ Forall P new.

(** The three steps of [_translate_frontmatter], each from the block as
    the steps before left it ([transcoder_steps] below). *)
Section Steps.
Variable ext : externals.

Definition title_step (raw target_lang new_frontmatter : str) : M str :=
  match search title_re raw with
  | Some title_match =>
    let original_title := group1 title_re title_match in
    translated_title <- _call_llm ext original_title target_lang true false ;;
    ret (replace (quoted original_title) (quoted translated_title) new_frontmatter)
  | None => ret new_frontmatter
  end.

Definition description_step (raw target_lang new_frontmatter : str) : M str :=
  match search description_re raw with
  | Some desc_match =>
    let original_desc := group1 description_re desc_match in
    translated_desc <- _call_llm ext original_desc target_lang true false ;;
    ret (replace (quoted original_desc) (quoted translated_desc) new_frontmatter)
  | None => ret new_frontmatter
  end.

Definition tags_step (raw target_lang new_frontmatter : str) : M str :=
  match search tags_re raw with
  | Some tags_match =>
    let original_tags_str := group1 tags_re tags_match in
    translated_tags_str <- _call_llm ext original_tags_str target_lang false true ;;
    if contains `"[" translated_tags_str && contains `"]" translated_tags_str
    then ret (replace original_tags_str translated_tags_str new_frontmatter)
    else
      print [T `"   [Warning] Tags translation format error. Keeping original tags."] ;;
      ret new_frontmatter
  | None => ret new_frontmatter
  end.

End Steps.

(** The text of the tags field of a block, as the transcoder finds it. *)
Definition tags_field (block : str) : option str :=
  option_map (group1 tags_re) (search tags_re block).

(** ** Test worlds *)

(** The request the model server is answering. *)
Definition request_text (tr : list event) : str :=
  match tr with
  | Chat _ _ user :: _ => user
  | _ => []
  end.

(** A model server that translates by a table and repeats what is not in
    it. *)
Definition translator (table : list (str * str)) (tr : list event) : outcome response :=
  Return {| content := dict_get table (request_text tr) (request_text tr);
            eval_duration := Some (2 * 10 ^ 9)%Z;
            eval_count := Some 100%Z |}.

(** A world where every call succeeds: the file exists and holds [doc],
    the model server is [translator table]. *)
Definition calm (doc : str) (table : list (str * str)) : externals :=
  {| time_time := fun tr => inject_Z (Z.of_nat (length tr));
     ollama_chat := translator table;
     ollama_generate := fun _ => Return tt;
     psycopg2_connect := fun _ => Return tt;
     conn_insert := fun _ => Return tt;
     conn_rollback := fun _ => Return tt;
     conn_close := fun _ => Return tt;
     path_exists := fun _ => true;
     read_text := fun _ => Return doc;
     mkdir := fun _ => Return tt;
     write_text := fun _ => Return tt |}.

Definition with_chat (w : externals) (chat : list event -> outcome response) : externals :=
  {| time_time := time_time w;
     ollama_chat := chat;
     ollama_generate := ollama_generate w;
     psycopg2_connect := psycopg2_connect w;
     conn_insert := conn_insert w;
     conn_rollback := conn_rollback w;
     conn_close := conn_close w;
     path_exists := path_exists w;
     read_text := read_text w;
     mkdir := mkdir w;
     write_text := write_text w |}.

(** The database server goes away after the connection was made: the
    INSERT fails, and so does the rollback on the dead connection. *)
Definition database_lost (w : externals) : externals :=
  {| time_time := time_time w;
     ollama_chat := ollama_chat w;
     ollama_generate := ollama_generate w;
     psycopg2_connect := psycopg2_connect w;
     conn_insert := fun _ =>
       Raise (Exception `"server closed the connection unexpectedly");
     conn_rollback := fun _ => Raise (Exception `"connection already closed");
     conn_close := conn_close w;
     path_exists := path_exists w;
     read_text := read_text w;
     mkdir := mkdir w;
     write_text := write_text w |}.

(** The database cannot be reached at all. *)
Definition database_down (w : externals) : externals :=
  {| time_time := time_time w;
     ollama_chat := ollama_chat w;
     ollama_generate := ollama_generate w;
     psycopg2_connect := fun _ => Raise (Exception `"could not connect to server");
     conn_insert := conn_insert w;
     conn_rollback := conn_rollback w;
     conn_close := conn_close w;
     path_exists := path_exists w;
     read_text := read_text w;
     mkdir := mkdir w;
     write_text := write_text w |}.

(** A model server that fails on one text only. *)
Definition fails_on (text : str) (table : list (str * str)) (tr : list event)
    : outcome response :=
  if str_eqb (request_text tr) text then Raise (Exception `"connection refused")
  else translator table tr.

Definition start : state := {| trace := []; conn := false |}.
Definition connected : state := {| trace := []; conn := true |}.

(** The delimiter of the frontmatter and the separator of paths. *)
Definition DELIM : str := `"---".
Definition SLASH : str := `"/".

(** What an atom may consume. *)
Definition accepts (a : atom) (x : str) : Prop :=
  match a with
  | One p => exists c, x = [c] /\ p c = true
  | Star _ p => Forall (fun c => p c = true) x
  end.

(** The events of the console, the clock, the monitor and the model
    unload: no inference request and no file operation. *)
Definition quiet (e : event) : Prop :=
  match e with
  | Chat _ _ _ | WriteFile _ _ | Mkdir _ | ReadFile _ | Exists _ => False
  | _ => True
  end.

(** What a round for [lang] on [path] may do outside: inference requests
    go to the model of [lang] only, and the only file written is the
    output for [lang]. *)
Definition round_event (path : Path) (lang : str) (e : event) : Prop :=
  match e with
  | Chat model _ _ => model = model_name_for lang
  | WriteFile file _ => file = to_str (parse (target_path_str path lang))
  | _ => True
  end.

(** The warning of the tags step. *)
Definition TAGS_WARNING : list frag :=
  [T `"   [Warning] Tags translation format error. Keeping original tags."].

(** The throughput the metrics should show: [eval_count] over
    [eval_duration] in seconds, 0 without a positive duration. *)
Definition tokens_per_second (r : response) : Q :=
  match eval_duration r with
  | Some d =>
    if (0 <? d)%Z
    then (match eval_count r with Some c => c | None => 0%Z end * 10 ^ 9) # Z.to_pos d
    else 0%Q
  | None => 0%Q
  end.


(** The trace of an inference call once the request is made, and once
    the model server has replied: the banner, the clock, the request and
    the clock again. *)
Definition requested (text lang : str) (is_metadata is_tags : bool) (tr : list event)
    : list event :=
  Chat (model_name_for lang) (system_prompt_for lang is_metadata is_tags) text
    :: Clock
    :: Stdout [T `"   [Inference] "; T (model_name_for lang); T `" -> "; T lang;
               T `" ("; T (role_label is_metadata is_tags); T `")..."]
    :: tr.

Definition replied (text lang : str) (is_metadata is_tags : bool) (tr : list event)
    : list event :=
  Clock :: requested text lang is_metadata is_tags tr.

(** A model server that reports no counters: the reply holds
    [eval_duration] and [eval_count] unset. *)
Definition no_counters (tr : list event) : outcome response :=
  Return {| content := request_text tr; eval_duration := None; eval_count := None |}.

(** ** Sample documents *)

Definition AI : str := `"AI".
Definition KI : str := `"KI".

(** [title: 'AI'] and, on the next line, [alias: 'AI'] *)
Definition block_recurring : str :=
  `"title: 'AI'" ++ [newline] ++ `"alias: 'AI'" ++ [newline].

(** The title in double quotes. *)
Definition block_double_quoted : str :=
  `"title: " ++ [dquote] ++ AI ++ [dquote] ++ [newline].

Definition block_title : str :=
  [newline] ++ `"title: 'Hello World'" ++ [newline] ++ `"author: 'hun'" ++ [newline].

(** The frontmatter of the end-to-end scenario: a title and a tags list. *)
Definition block_hello_tags : str :=
  `"title: 'Hello World'" ++ [newline] ++ `"tags: ['AI', 'Blog']" ++ [newline].

(** A [subtitle] before the [title]. *)
Definition block_subtitle : str :=
  `"subtitle: 'AI'" ++ [newline] ++ `"title: 'Blog'" ++ [newline].

Definition block_title_tags : str :=
  `"title: 'AI'" ++ [newline] ++ `"tags: ['AI']" ++ [newline].

Definition block_tags : str :=
  [newline] ++ `"draft: false" ++ [newline] ++ `"tags: ['AI', 'Blog']" ++ [newline].

Definition block_title_description : str :=
  `"title: 'A'" ++ [newline] ++ `"description: 'B'" ++ [newline].

Definition post_path : str := `"/home/hun/blog/src/content/blog/ko/post.mdx".
Definition note_path : str := `"/home/hun/notes/post.mdx".

(** A post with one newline between the closing delimiter and the body. *)
Definition post_tight : str :=
  `"---" ++ [newline] ++ `"title: 'A'" ++ [newline] ++ `"---" ++ [newline] ++ `"Body".

Definition post : str :=
  `"---" ++ [newline] ++ `"title: 'A'" ++ [newline] ++ `"---" ++ [newline; newline]
    ++ `"Body" ++ [newline].

Definition post_plain : str := `"Body only -- no frontmatter" ++ [newline].

(** A model server on which one model is down while the others answer. *)
Definition model_down (model : str) (table : list (str * str)) (tr : list event)
    : outcome response :=
  match tr with
  | Chat m _ _ :: _ =>
    if str_eqb m model then Raise (Exception `"connection refused")
    else translator table tr
  | _ => translator table tr
  end.

(** What replacing only the raw value of the title would give. *)
Definition title_spliced (raw translated : str) : str :=
  match search title_re raw with
  | Some m =>
    firstn (start1 title_re m) raw ++ translated
      ++ skipn (start1 title_re m + length (group1 title_re m)) raw
  | None => raw
  end.

(** The body part of a document. *)
Definition body_of (content : str) : str := snd (fst (split_frontmatter content)).

Definition en_path : str := `"/home/hun/blog/src/content/blog/en/post.mdx".
Definition jp_path : str := `"/home/hun/blog/src/content/blog/jp/post.mdx".

Definition JP_BANNER : list frag :=
  [T ([newline] ++ `"--- Starting "); T `"JP"; T `" Translation ---"].

(** The worlds of the sample runs. *)
Definition glossary : externals := calm [] [(AI, KI)].
Definition glossary_hello : externals := calm [] [(`"Hello World", `"Hi World")].
Definition glossary_bad_tags : externals :=
  calm [] [(AI, KI); (`"['AI']", `"KI, Blog")].
Definition glossary_good_tags : externals :=
  calm [] [(AI, KI); (`"['AI']", `"['Intelligenz']")].
Definition glossary_no_list : externals :=
  calm [] [(`"['AI', 'Blog']", `"KI, Blog")].
Definition title_fails : externals := with_chat (calm [] []) (fails_on `"A" []).
Definition en_model_down : externals :=
  with_chat (calm post []) (model_down `"gemma2:9b" []).
Definition database_goes_away : externals := database_lost (calm post []).
Definition counters_unset : externals := with_chat (calm post []) no_counters.

(* ================================================================== *)
(** * main.py: file selection *)
(* ================================================================== *)

(** The file system as the selection reads it. The selection only looks,
    and looks once: the functions below are one snapshot of the disk. *)
Record disk := {
  (** [os.path.expanduser(s)] *)
  expanduser : str -> str;
  (** [Path(s).resolve()] *)
  resolve : str -> Path;
  is_file : Path -> bool;
  is_dir : Path -> bool;
  (** [p.exists()] *)
  on_disk : Path -> bool;
  (** [list(p.rglob("*.mdx"))] *)
  rglob_mdx : Path -> list Path;
  (** [os.path.getmtime(p)] *)
  getmtime : Path -> Q }.

(** [max(first :: rest, key=key)]: a later item wins only with a key
    strictly greater than the best so far. *)
Fixpoint max_by {A : Type} (key : A -> Q) (best : A) (rest : list A) : A :=
  match rest with
  | [] => best
  | x :: rest' =>
    if Qle_bool (key x) (key best) then max_by key best rest'
    else max_by key x rest'
  end.

Section Selection.

Variable d : disk.

Definition DEFAULT_BLOG_PATH : str :=
  expanduser d `"~/hun-bot-blog/src/content/blog/ko".

Definition get_latest_file (source_dir : str) : option Path :=
  let source_path := resolve d source_dir in
  let all_files := rglob_mdx d source_path in
  match all_files with
  | [] => None
  | first :: rest => Some (max_by (getmtime d) first rest)
  end.

(** The test of the directory scan (lines 69-71): a translation is
    missing. *)
Definition untranslated (file : Path) : bool :=
  let en_path := parse (replace `"/ko/" `"/en/" (to_str file)) in
  let jp_path := parse (replace `"/ko/" `"/jp/" (to_str file)) in
  negb (on_disk d en_path) || negb (on_disk d jp_path).

(** [target_path_str] is [None] when no path was given on the command
    line. *)
Definition get_files_to_process (target_path_str : option str)
    (force_mode is_last_mode : bool) : M (list Path) :=
  if is_last_mode then
    print [T `"[INFO] Looking for the most recently modified file in ";
           T DEFAULT_BLOG_PATH; T `"..."] ;;
    match get_latest_file DEFAULT_BLOG_PATH with
    | Some latest_file =>
      print [T `"[INFO] Found latest file: "; T (name latest_file)] ;;
      ret [latest_file]
    | None =>
      print [T `"[ERROR] No MDX files found in "; T DEFAULT_BLOG_PATH] ;;
      ret []
    end
  else
    let target_path :=
      match target_path_str with
      | Some (c :: s) =>
        if startswith `"~" (c :: s) then resolve d (expanduser d (c :: s))
        else resolve d (c :: s)
      | _ => resolve d DEFAULT_BLOG_PATH
      end in
    if is_file d target_path then
      print [T `"[INFO] Target is a single file: "; T (name target_path)] ;;
      ret [target_path]
    else if is_dir d target_path then
      print [T `"[INFO] Target is a directory. Scanning: "; T (to_str target_path)] ;;
      let all_files := rglob_mdx d target_path in
      if force_mode then
        print [T `"[INFO] Force Mode: Included all "; D (length all_files);
               T `" files."] ;;
        ret all_files
      else
        let files := filter untranslated all_files in
        print [T `"[INFO] Found "; D (length files); T `" files to translate."] ;;
        ret files
    else
      print [T `"[ERROR] Path does not exist: "; T (to_str target_path)] ;;
      ret [].

(** [main] from the parsed arguments ([args.target], [args.force],
    [args.last]). *)
Definition main_from_args (ext : externals) (target : option str)
    (force last : bool) : M unit :=
  MLOpsMonitor_init ext ;;
  try_finally
    (try_interrupt
       (files_to_process <- get_files_to_process target force last ;;
        match files_to_process with
        | [] => print [T `"[INFO] No files to process."]
        | _ :: _ =>
          print [T ([newline] ++ `"[INFO] Starting Processing for ");
                 D (length files_to_process); T `" file(s)..."] ;;
          process_files ext files_to_process
        end)
       (print [T ([newline] ++ `"[INFO] Stopped by user.")]))
    (close ext ;; print [T ([newline] ++ `"[INFO] Done.")]).

End Selection.

(** The code fence that [_call_llm] removes from a tags reply. *)
Definition FENCE : str := `"```".

(** The texts the transcoder sends to the model for a block. *)
Definition captured_fields (raw : str) : list str :=
  match search title_re raw with Some m => [group1 title_re m] | None => [] end
  ++ match search description_re raw with
     | Some m => [group1 description_re m]
     | None => []
     end
  ++ match search tags_re raw with Some m => [group1 tags_re m] | None => [] end.

(** The pattern of a quoted field, [key\s*['\"](.*?)['\"]]: [title_re] and
    [description_re] are its instances. *)
Definition quoted_field_re (key : str) : pattern :=
  {| before := literal key ++ [Star true isspace; One is_quote];
     group := [Star false dot];
     after := [One is_quote] |}.

(** A model server that wraps a tags reply in a code fence. *)
Definition fenced (tr : list event) : outcome response :=
  Return {| content := `"```json" ++ [newline] ++ request_text tr ++ [newline] ++ `"```";
            eval_duration := Some (10 ^ 9)%Z;
            eval_count := Some 40%Z |}.

Definition fencing : externals := with_chat (calm [] []) fenced.
Definition echoing : externals := calm [] [].

(** A title in double quotes with an apostrophe inside. *)
Definition block_apostrophe : str :=
  `"title: " ++ [dquote] ++ `"It's here" ++ [dquote] ++ [newline].

(** A tags list with a nested list. *)
Definition block_nested_tags : str := `"tags: [['a'], 'b']" ++ [newline].

(** What processing [path] may touch: it asks for and reads the source
    file only, writes the two output files only, and sends requests to
    the two configured models only. *)
Definition in_file_scope (path : Path) (e : event) : Prop :=
  match e with
  | Exists p | ReadFile p => p = to_str path
  | WriteFile p _ =>
    p = to_str (parse (target_path_str path `"EN"))
    \/ p = to_str (parse (target_path_str path `"JP"))
  | Chat model _ _ => model = `"gemma2:9b" \/ model = `"qwen2.5:7b"
  | _ => True
  end.

(** A disk with two posts under the blog directory (the default one), the
    second one newer and already translated, and a note outside any
    [/ko/] directory. *)
Definition first_post : Path := parse `"/blog/ko/a.mdx".
Definition second_post : Path := parse `"/blog/ko/b.mdx".
Definition stray_note : Path := parse `"/blog/notes/c.mdx".

Definition path_eqb (p q : Path) : bool := str_eqb (to_str p) (to_str q).

Definition sample_disk : disk :=
  {| expanduser := fun s =>
       if str_eqb s `"~/hun-bot-blog/src/content/blog/ko" then `"/blog" else s;
     resolve := parse;
     is_file := fun p => existsb (path_eqb p) [first_post; second_post; stray_note];
     is_dir := fun p => path_eqb p (parse `"/blog");
     on_disk := fun p =>
       existsb (path_eqb p)
         [first_post; second_post; stray_note;
          parse `"/blog/en/b.mdx"; parse `"/blog/jp/b.mdx"];
     rglob_mdx := fun p =>
       if path_eqb p (parse `"/blog") then [first_post; second_post; stray_note]
       else [];
     getmtime := fun p => if path_eqb p second_post then 20%Q else 10%Q |}.


(** A path as [pathlib] holds it: one of the three roots, and components
    that are neither empty nor "." and hold no separator. *)
Definition well_formed (p : Path) : Prop :=
  (root p = [] \/ root p = `"/" \/ root p = `"//")
  /\ Forall (fun c => is_component c = true /\ find SLASH c = None) (parts p).
(* ================================================================== *)
(** * Facts about text *)
(* ================================================================== *)

Unset Implicit Arguments.

Section TextFacts.

Lemma char_eqb_eq (a b : char) : char_eqb a b = true <-> a = b.
Proof. apply N.eqb_eq. Qed.

Lemma char_eqb_refl (c : char) : char_eqb c c = true.
Proof. apply N.eqb_refl. Qed.

Lemma str_eqb_eq (a b : str) : str_eqb a b = true <-> a = b.
Proof.
  revert b; induction a as [|x a IH]; intros [|y b]; simpl; split;
    try congruence; try reflexivity.
  - rewrite andb_true_iff, char_eqb_eq, IH. intros [-> ->]; reflexivity.
  - intros E; inversion E; subst. now rewrite char_eqb_refl, (proj2 (IH b)).
Qed.

Lemma startswith_app (p s : str) : startswith p (p ++ s) = true.
Proof.
  induction p as [|x p IH]; simpl; [reflexivity|].
  now rewrite char_eqb_refl, IH.
Qed.

Lemma startswith_split (p s : str) :
  startswith p s = true -> s = p ++ skipn (length p) s.
Proof.
  revert s; induction p as [|x p IH]; intros s H; [reflexivity|].
  destruct s as [|y s]; simpl in H; [discriminate|].
  apply andb_true_iff in H as [Hc Hp].
  apply char_eqb_eq in Hc; subst y. simpl. f_equal. now apply IH.
Qed.

Lemma occurs_at_split (sub s : str) (i : nat) :
  occurs_at sub s i -> i <= length s ->
  s = firstn i s ++ sub ++ skipn (i + length sub) s.
Proof.
  unfold occurs_at; intros H _.
  apply startswith_split in H.
  rewrite skipn_skipn in H. rewrite (Nat.add_comm i), <- H.
  symmetry; apply firstn_skipn.
Qed.

Lemma occurs_at_app (a sub b : str) : occurs_at sub (a ++ sub ++ b) (length a).
Proof.
  unfold occurs_at. rewrite skipn_app, Nat.sub_diag, skipn_all; simpl.
  apply startswith_app.
Qed.

Lemma find_Some (sub s : str) (i : nat) :
  find sub s = Some i ->
  occurs_at sub s i /\ i <= length s /\ forall k, k < i -> ~ occurs_at sub s k.
Proof.
  unfold occurs_at. revert i; induction s as [|c s IH]; intros i H.
  - simpl in H. destruct (startswith sub []) eqn:E; [|discriminate].
    inversion H; subst. repeat split; auto. intros k Hk; lia.
  - cbn [find] in H. destruct (startswith sub (c :: s)) eqn:E.
    + inversion H; subst. repeat split; auto; [simpl; lia|intros k Hk; lia].
    + destruct (find sub s) as [j|] eqn:F; [|discriminate].
      inversion H; subst. destruct (IH j eq_refl) as (H1 & H2 & H3).
      repeat split; [exact H1|simpl; lia|].
      intros [|k] Hk; simpl; [congruence|]. apply H3; lia.
Qed.

Lemma find_None (sub s : str) :
  find sub s = None -> forall k, ~ occurs_at sub s k.
Proof.
  unfold occurs_at. induction s as [|c s IH]; intros H k.
  - simpl in H. destruct (startswith sub []) eqn:E; [discriminate|].
    now rewrite skipn_nil, E.
  - cbn [find] in H. destruct (startswith sub (c :: s)) eqn:E; [discriminate|].
    destruct (find sub s) eqn:F; [discriminate|].
    destruct k as [|k]; simpl; [congruence|]. now apply IH.
Qed.

Lemma find_first (sub s : str) (i : nat) :
  occurs_at sub s i -> i <= length s ->
  (forall k, k < i -> ~ occurs_at sub s k) ->
  find sub s = Some i.
Proof.
  unfold occurs_at. revert i; induction s as [|c s IH]; intros i H Hi Hk.
  - simpl in Hi. assert (i = 0) by lia; subst. simpl in *. now rewrite H.
  - cbn [find]. destruct (startswith sub (c :: s)) eqn:E.
    + destruct i as [|i]; [reflexivity|].
      exfalso. apply (Hk 0); [lia|exact E].
    + destruct i as [|i]; [simpl in H; congruence|].
      rewrite (IH i); [reflexivity|exact H|simpl in Hi; lia|].
      intros k Hlt. apply (Hk (S k)). lia.
Qed.

Lemma find_none_intro (sub s : str) :
  (forall k, k <= length s -> ~ occurs_at sub s k) -> find sub s = None.
Proof.
  intros H. destruct (find sub s) as [i|] eqn:F; [|reflexivity].
  apply find_Some in F as (H1 & H2 & _). now apply H in H1.
Qed.

(** The scan of [replace] never needs more steps than it is given. *)
Lemma replace_scan_enough (old new : str) (fuel : nat) (s : str) :
  old <> [] -> length s <= fuel ->
  replace_scan fuel old new s = replace_scan (length s) old new s.
Proof.
  intros Hold. revert s.
  induction fuel as [fuel IH] using lt_wf_ind. intros s Hs.
  destruct fuel as [|f].
  - destruct s; [reflexivity|simpl in Hs; lia].
  - destruct s as [|c s].
    + simpl. destruct (startswith old []) eqn:E; [|reflexivity].
      destruct old; [congruence|discriminate].
    + cbn [replace_scan length]. destruct (find old (c :: s)) as [i|] eqn:F; [|reflexivity].
      apply find_Some in F as (_ & Hi & _).
      assert (Hlen : length (skipn (i + length old) (c :: s)) <= length s).
      { rewrite length_skipn. destruct old; [congruence|]. cbn [length] in *. lia. }
      rewrite (IH f) by (simpl in Hs; lia).
      rewrite (IH (length s)) with (s := skipn _ _); [reflexivity|simpl in Hs; lia|exact Hlen].
Qed.

(** [replace] rewrites the first occurrence and goes on after it. *)
Lemma replace_first (old new s : str) (i : nat) :
  old <> [] -> find old s = Some i ->
  replace old new s = firstn i s ++ new ++ replace old new (skipn (i + length old) s).
Proof.
  intros Hold F. unfold replace. destruct old as [|o old]; [congruence|].
  destruct s as [|c s].
  - simpl in F. discriminate.
  - cbn [replace_scan length]. rewrite F. do 2 f_equal.
    apply replace_scan_enough; [discriminate|].
    apply find_Some in F as (_ & Hi & _).
    rewrite length_skipn. cbn [length] in *. lia.
Qed.

Lemma replace_absent (old new s : str) :
  find old s = None -> replace old new s = s.
Proof.
  intros F. unfold replace. destruct old as [|o old].
  - destruct s; simpl in F; discriminate.
  - destruct s; [reflexivity|]. cbn [replace_scan length]. now rewrite F.
Qed.

(** One occurrence only: exactly that range is rewritten. *)
Lemma replace_once (old new a b : str) :
  old <> [] -> find old (a ++ old ++ b) = Some (length a) -> find old b = None ->
  replace old new (a ++ old ++ b) = a ++ new ++ b.
Proof.
  intros Hold F Fb. rewrite replace_first with (i := length a) by assumption.
  rewrite firstn_app, Nat.sub_diag, firstn_all; simpl. rewrite app_nil_r.
  rewrite skipn_app, skipn_all2 by lia. simpl.
  replace (length a + length old - length a) with (length old) by lia.
  rewrite skipn_app, skipn_all, Nat.sub_diag. simpl.
  now rewrite replace_absent.
Qed.

Lemma lstrip_fixed (s : str) :
  lstrip s = s <-> match s with [] => True | c :: _ => isspace c = false end.
Proof.
  destruct s as [|c s]; simpl; [tauto|].
  destruct (isspace c) eqn:E; split; try congruence; auto.
  intros H. exfalso.
  assert (L : forall t, length (lstrip t) <= length t).
  { induction t as [|x t IHt]; simpl; [lia|]. destruct (isspace x); simpl; lia. }
  specialize (L s). rewrite H in L. simpl in L. lia.
Qed.

Lemma lstrip_head (s : str) :
  match lstrip s with [] => True | c :: _ => isspace c = false end.
Proof.
  induction s as [|c s IH]; simpl; [exact I|].
  destruct (isspace c) eqn:E; [exact IH|exact E].
Qed.

Lemma lstrip_lstrip (s : str) : lstrip (lstrip s) = lstrip s.
Proof. apply lstrip_fixed, lstrip_head. Qed.

Lemma lstrip_snoc (s : str) (c : char) :
  isspace c = false -> lstrip (s ++ [c]) = lstrip s ++ [c].
Proof.
  intros Hc. induction s as [|x s IH]; simpl; [now rewrite Hc|].
  destruct (isspace x); [exact IH|reflexivity].
Qed.

(** What [strip] returns has no white space at either end. *)
Lemma strip_stripped (s : str) :
  lstrip (strip s) = strip s /\ rstrip (strip s) = strip s.
Proof.
  unfold strip, rstrip. split.
  - pose proof (lstrip_head s) as H. destruct (lstrip s) as [|c t]; [reflexivity|].
    apply lstrip_fixed. cbn [rev]. rewrite lstrip_snoc by exact H.
    rewrite rev_app_distr. exact H.
  - now rewrite rev_involutive, lstrip_lstrip.
Qed.

End TextFacts.


Lemma match_here_sound (r : list atom) (s : str) (ps : list str) :
  match_here r s = Some ps ->
  Forall2 accepts r ps /\ exists rest, s = concat ps ++ rest.
Proof.
  revert s ps; induction r as [|a r IH]; intros s ps H.
  - inversion H; subst. split; [constructor|now exists s].
  - destruct a as [p|greedy p].
    + destruct s as [|c s]; [discriminate|]. cbn [match_here] in H.
      destruct (p c) eqn:Hp; [|discriminate].
      destruct (match_here r s) as [ps'|] eqn:Hm; [|discriminate].
      inversion H; subst. destruct (IH _ _ Hm) as (F & rest & E).
      split; [constructor; [now exists c|exact F]|].
      exists rest. cbn [concat app]. now rewrite E at 1.
    + cbn [match_here] in H.
      assert (Hstop : forall s ps, option_map (cons []) (match_here r s) = Some ps ->
                Forall2 accepts (Star greedy p :: r) ps /\ exists rest, s = concat ps ++ rest).
      { intros s0 ps0 H0. destruct (match_here r s0) as [ps'|] eqn:Hm; [|discriminate].
        inversion H0; subst. destruct (IH _ _ Hm) as (F & rest & E).
        split; [constructor; [constructor|exact F]|]. now exists rest. }
      assert (Hpush : forall c s ps l, p c = true -> push c l = Some ps ->
                (forall ps', l = Some ps' ->
                   Forall2 accepts (Star greedy p :: r) ps' /\ exists rest, s = concat ps' ++ rest) ->
                Forall2 accepts (Star greedy p :: r) ps
                /\ exists rest, c :: s = concat ps ++ rest).
      { intros c s0 ps0 l Hp Hl Hrec. destruct l as [ps'|]; [|discriminate].
        destruct (Hrec _ eq_refl) as (F & rest & E).
        inversion F as [|? x ? t Hx Ht]; subst. inversion Hl; subst.
        split; [constructor; [constructor; assumption|exact Ht]|].
        exists rest. reflexivity. }
      revert ps H. induction s as [|c s IHs]; intros ps H.
      * now apply Hstop.
      * destruct (p c) eqn:Hp; [|now apply Hstop].
        destruct greedy.
        -- match type of H with
           | match push c ?l with _ => _ end = _ => destruct (push c l) as [m|] eqn:Hl
           end.
           ++ inversion H; subst. eapply Hpush; [exact Hp|exact Hl|]. intros ps' E. now apply IHs.
           ++ now apply Hstop.
        -- match type of H with
           | match ?x with _ => _ end = _ => destruct x as [m|] eqn:Hs
           end.
           ++ inversion H; subst. now apply Hstop.
           ++ eapply Hpush; [exact Hp|exact H|]. intros ps' E. now apply IHs.
Qed.

Lemma search_from_sound (r : list atom) (s : str) (pos : nat) (m : match_obj) :
  search_from r s pos = Some m ->
  Forall2 accepts r (m_parts m)
  /\ exists pre rest, s = pre ++ concat (m_parts m) ++ rest
                      /\ m_start m = pos + length pre.
Proof.
  revert pos; induction s as [|c s IH]; intros pos H; cbn [search_from] in H.
  - destruct (match_here r []) as [ps|] eqn:Hm; [|discriminate].
    inversion H; subst. destruct (match_here_sound _ _ _ Hm) as (F & rest & E).
    split; [exact F|]. exists [], rest. cbn. split; [exact E|lia].
  - destruct (match_here r (c :: s)) as [ps|] eqn:Hm.
    + inversion H; subst. destruct (match_here_sound _ _ _ Hm) as (F & rest & E).
      split; [exact F|]. exists [], rest. cbn. split; [exact E|lia].
    + destruct (IH _ H) as (F & pre & rest & E & Hs).
      split; [exact F|]. exists (c :: pre), rest. cbn. split; [now rewrite E at 1|lia].
Qed.

(** A title match, read back: the block is some text, [title:], white
    space, a quote, the captured value, a quote, and the rest; the value
    holds no newline, and [start1] is where it begins. *)
Lemma title_match_shape (raw : str) (m : match_obj) :
  search title_re raw = Some m ->
  exists pre ws q1 q2 post,
    raw = pre ++ `"title:" ++ ws ++ [q1] ++ group1 title_re m ++ [q2] ++ post
    /\ Forall (fun c => isspace c = true) ws
    /\ is_quote q1 = true /\ is_quote q2 = true
    /\ Forall (fun c => dot c = true) (group1 title_re m)
    /\ start1 title_re m = length (pre ++ `"title:" ++ ws ++ [q1]).
Proof.
  intros H. apply search_from_sound in H as (F & pre & rest & E & Hs).
  unfold group1, start1. destruct (m_parts m) as [|x ps] eqn:Hps; [inversion F|].
  repeat (match goal with
          | F : Forall2 accepts _ (_ :: _) |- _ => inversion F; subst; clear F
          | F : Forall2 accepts _ ?l |- _ => destruct l; [now inversion F|]
          end).
  repeat (match goal with
          | H : accepts (One _) _ |- _ => destruct H as (? & -> & ?)
          | H : accepts (Star _ _) _ |- _ => cbn [accepts] in H
          end).
  match goal with F : Forall2 accepts [] ?l |- _ => inversion F; subst end.
  repeat match goal with
         | H : char_eqb _ _ = true |- _ => apply char_eqb_eq in H; subst
         end.
  match goal with
  | H1 : Forall _ ?ws, H2 : is_quote ?q1 = true, H3 : Forall _ ?t, H4 : is_quote ?q2 = true
    |- context [?ws :: [?q1] :: ?t :: [[?q2]]] => exists pre, ws, q1, q2, rest
  end.
  simpl. rewrite !app_nil_r. repeat split; try assumption.
  - do 6 f_equal. repeat (rewrite <- app_assoc; simpl). reflexivity.
  - rewrite Hs. repeat (rewrite ?length_app; cbn [length app]). lia.
Qed.

(* ================================================================== *)
(** * Facts about the effects *)
(* ================================================================== *)

Section MonadFacts.

Context {A B : Type}.

Lemma bind_return (m : M A) (k : A -> M B) (st st' : state) (a : A) :
  m st = (Return a, st') -> bind m k st = k a st'.
Proof. unfold bind; now intros ->. Qed.

Lemma bind_raise (m : M A) (k : A -> M B) (st st' : state) (e : exc) :
  m st = (Raise e, st') -> bind m k st = (Raise e, st').
Proof. unfold bind; now intros ->. Qed.

End MonadFacts.


Section Emits.

Variable P : event -> Prop.

Lemma emits_ret {A} (a : A) : emits P (ret a).
Proof. intros st; exists []; simpl; auto. Qed.

Lemma emits_raise {A} (e : exc) : emits P (@raise A e).
Proof. intros st; exists []; simpl; auto. Qed.

Lemma emits_get_conn : emits P get_conn.
Proof. intros st; exists []; simpl; auto. Qed.

Lemma emits_set_conn (c : bool) : emits P (set_conn c).
Proof. intros st; exists []; simpl; auto. Qed.

Lemma emits_print (line : list frag) : P (Stdout line) -> emits P (print line).
Proof. intros H st; exists [Stdout line]; simpl; auto. Qed.

Lemma emits_call {A} (e : event) (oracle : list event -> outcome A) :
  P e -> emits P (call e oracle).
Proof. intros H st; exists [e]; simpl; auto. Qed.

Lemma emits_ask {A} (e : event) (oracle : list event -> A) :
  P e -> emits P (ask e oracle).
Proof. intros H st; exists [e]; simpl; auto. Qed.

Lemma emits_bind {A B} (m : M A) (k : A -> M B) :
  emits P m -> (forall a, emits P (k a)) -> emits P (bind m k).
Proof.
  intros Hm Hk st. unfold bind.
  destruct (Hm st) as (n1 & E1 & F1).
  destruct (m st) as [[a|e] st1]; simpl in E1.
  - destruct (Hk a st1) as (n2 & E2 & F2).
    exists (n2 ++ n1). rewrite E2, E1, app_assoc. split; [reflexivity|].
    apply Forall_app; auto.
  - exists n1; auto.
Qed.

Lemma emits_try_except {A} (body : M A) (handler : str -> M A) :
  emits P body -> (forall msg, emits P (handler msg)) ->
  emits P (try_except body handler).
Proof.
  intros Hb Hh st. unfold try_except.
  destruct (Hb st) as (n1 & E1 & F1).
  destruct (body st) as [[a|[msg|]] st1]; simpl in E1; try (exists n1; now auto).
  destruct (Hh msg st1) as (n2 & E2 & F2).
  exists (n2 ++ n1). rewrite E2, E1, app_assoc. split; [reflexivity|].
  apply Forall_app; auto.
Qed.

Lemma emits_for_each {A} (xs : list A) (body : A -> M unit) :
  (forall x, In x xs -> emits P (body x)) -> emits P (for_each xs body).
Proof.
  induction xs as [|x xs IH]; intros H; simpl.
  - apply emits_ret.
  - apply emits_bind; [apply H; now left|].
    intros _. apply IH. intros y Hy. apply H. now right.
Qed.

End Emits.

Ltac emits_step :=
  lazymatch goal with
  | |- emits _ (bind _ _) => apply emits_bind; [|intros ?]
  | |- emits _ (try_except _ _) => apply emits_try_except; [|intros ?]
  | |- emits _ (ret _) => apply emits_ret
  | |- emits _ (raise _) => apply emits_raise
  | |- emits _ get_conn => apply emits_get_conn
  | |- emits _ (set_conn _) => apply emits_set_conn
  | |- emits _ (print _) => apply emits_print
  | |- emits _ (call _ _) => apply emits_call
  | |- emits _ (ask _ _) => apply emits_ask
  | |- emits _ (if ?b then _ else _) => destruct b
  | |- emits _ (match ?x with _ => _ end) => destruct x
  end.

Section ProgramEmits.

Variable ext : externals.
Variable P : event -> Prop.
Variable lang : str.
Hypothesis quiet_ok : forall e, quiet e -> P e.
Hypothesis chat_ok : forall system user, P (Chat (model_name_for lang) system user).

Lemma emits_connect : emits P (_connect ext).
Proof. unfold _connect. repeat emits_step; apply quiet_ok; exact I. Qed.

Lemma emits_log_inference model src tgt input output latency rate score :
  emits P (log_inference ext model src tgt input output latency rate score).
Proof.
  unfold log_inference.
  repeat first [apply emits_connect | emits_step]; apply quiet_ok; exact I.
Qed.

Lemma emits_tps (r : response) : emits P (tps r).
Proof. unfold tps, truediv. repeat emits_step. Qed.

Lemma emits_call_llm text is_metadata is_tags :
  emits P (_call_llm ext text lang is_metadata is_tags).
Proof.
  unfold _call_llm.
  repeat first [apply emits_log_inference | apply emits_tps | emits_step];
    try apply chat_ok; apply quiet_ok; exact I.
Qed.

Lemma emits_translate_frontmatter raw :
  emits P (_translate_frontmatter ext raw lang).
Proof.
  unfold _translate_frontmatter.
  repeat first [apply emits_call_llm | emits_step]; apply quiet_ok; exact I.
Qed.

Variable path : Path.
Hypothesis mkdir_ok : forall dir, P (Mkdir dir).
Hypothesis write_ok :
  forall content, P (WriteFile (to_str (parse (target_path_str path lang))) content).

Lemma emits_translate_to frontmatter body :
  emits P (translate_to ext path frontmatter body lang).
Proof.
  unfold translate_to.
  repeat first [apply emits_call_llm | apply emits_translate_frontmatter | emits_step];
    try apply mkdir_ok; try apply write_ok; apply quiet_ok; exact I.
Qed.

End ProgramEmits.


(* ================================================================== *)
(** * The inference call *)
(* ================================================================== *)

Lemma truediv_nonzero (a b : Q) (st : state) :
  ~ (b == 0)%Q -> truediv a b st = (Return (a / b)%Q, st).
Proof.
  intros H. unfold truediv.
  destruct (Qeq_bool b 0) eqn:E; [|reflexivity].
  apply Qeq_bool_iff in E. contradiction.
Qed.

Lemma seconds_nonzero (d : Z) :
  (0 < d)%Z -> ~ (inject_Z d / inject_Z (10 ^ 9) == 0)%Q.
Proof.
  intros Hd H. unfold Qeq, Qdiv, Qmult, Qinv, inject_Z in H. simpl in H. lia.
Qed.

(** What [tps] gives, by the counters of the reply. It never changes the
    state and never divides by zero. *)
Lemma tps_state (r : response) (st : state) : snd (tps r st) = st.
Proof.
  unfold tps, truediv, bind, ret, raise.
  destruct (eval_duration r) as [d|]; [|reflexivity].
  destruct (0 <? d)%Z; [|reflexivity].
  destruct (Qeq_bool (inject_Z (10 ^ 9)) 0); [reflexivity|].
  destruct (eval_count r) as [c|]; [|reflexivity].
  destruct (Qeq_bool _ 0); reflexivity.
Qed.

Lemma tps_without_duration (r : response) (d : Z) (st : state) :
  eval_duration r = Some d -> (d <= 0)%Z -> tps r st = (Return 0%Q, st).
Proof.
  intros E Hd. unfold tps. rewrite E.
  destruct (0 <? d)%Z eqn:H; [apply Z.ltb_lt in H; lia|reflexivity].
Qed.

Lemma tps_quotient (r : response) (d c : Z) (st : state) :
  eval_duration r = Some d -> (0 < d)%Z -> eval_count r = Some c ->
  tps r st = (Return (inject_Z c / (inject_Z d / inject_Z (10 ^ 9)))%Q, st).
Proof.
  intros E Hd Ec. unfold tps. rewrite E, Ec.
  apply Z.ltb_lt in Hd as Hb. rewrite Hb.
  erewrite bind_return; [|apply truediv_nonzero; discriminate].
  apply truediv_nonzero. now apply seconds_nonzero.
Qed.

Lemma tps_type_error (r : response) (st : state) :
  eval_duration r = None
  \/ (eval_count r = None /\ exists d, eval_duration r = Some d /\ (0 < d)%Z) ->
  exists msg, tps r st = (Raise (Exception msg), st).
Proof.
  intros [E|(Ec & d & E & Hd)]; unfold tps; rewrite E.
  - eexists. reflexivity.
  - apply Z.ltb_lt in Hd. rewrite Hd, Ec.
    erewrite bind_return; [|apply truediv_nonzero; discriminate].
    eexists. reflexivity.
Qed.

Lemma quotient_is_tokens_per_second (r : response) (d c : Z) :
  eval_duration r = Some d -> (0 < d)%Z -> eval_count r = Some c ->
  (inject_Z c / (inject_Z d / inject_Z (10 ^ 9)) == tokens_per_second r)%Q.
Proof.
  intros E Hd Ec. unfold tokens_per_second. rewrite E, Ec.
  apply Z.ltb_lt in Hd as Hb. rewrite Hb.
  destruct d as [|p|p]; try lia.
  unfold Qeq, Qdiv, Qmult, Qinv, inject_Z; simpl; lia.
Qed.

Lemma chat_requests_app (a b : list event) :
  chat_requests (a ++ b) = chat_requests a ++ chat_requests b.
Proof. apply flat_map_app. Qed.

Lemma chat_requests_quiet (new : list event) :
  Forall quiet new -> chat_requests new = [].
Proof.
  induction 1 as [|e new He _ IH]; [reflexivity|].
  destruct e; simpl in *; try contradiction; exact IH.
Qed.

(** C9. Every run of the inference call sends exactly one request, and the
    model identifier and system prompt of that request are given by two
    functions of the target language and the role flags alone, whatever the
    text, the state and the outside world; the tags role appends the strict
    output-format instruction to the language's base prompt, the metadata
    role the brevity instruction, the body role nothing. *)
Theorem selection_is_pure (ext : externals) (st : state) (text lang : str)
    (is_metadata is_tags : bool) :
  chat_requests (trace (snd (_call_llm ext text lang is_metadata is_tags st)))
  = (model_name_for lang, system_prompt_for lang is_metadata is_tags)
      :: chat_requests (trace st)
  /\ model_name_for lang = dict_get MODELS lang `"gemma2:9b"
  /\ system_prompt_for lang is_metadata true
     = dict_get SYSTEM_PROMPTS lang [] ++ TAGS_INSTRUCTION
  /\ system_prompt_for lang true false
     = dict_get SYSTEM_PROMPTS lang [] ++ METADATA_INSTRUCTION
  /\ system_prompt_for lang false false = dict_get SYSTEM_PROMPTS lang [].
Proof.
  split; [|now destruct is_metadata].
  unfold _call_llm.
  set (model := model_name_for lang).
  set (system := system_prompt_for lang is_metadata is_tags).
  unfold bind at 1, print at 1. unfold bind at 1, ask at 1.
  unfold bind at 1, call at 1.
  destruct (ollama_chat ext _) as [response|e]; [|reflexivity].
  match goal with
  | |- context [snd (?m ?s)] =>
    assert (E : emits quiet m);
      [|destruct (E s) as (new & -> & Hq)]
  end.
  { repeat first [apply emits_log_inference | apply emits_tps | emits_step];
      auto; exact I. }
  rewrite chat_requests_app, (chat_requests_quiet _ Hq). reflexivity.
Qed.

(* ================================================================== *)
(** * Splitting a document *)
(* ================================================================== *)


Lemma occurs_at_bound (sub s : str) (i : nat) :
  sub <> [] -> occurs_at sub s i -> i + length sub <= length s.
Proof.
  intros Hsub H. unfold occurs_at in H. apply startswith_split in H.
  apply (f_equal (@length char)) in H.
  rewrite length_app, !length_skipn in H.
  destruct sub; [congruence|]. simpl in *. lia.
Qed.

Lemma next_occurrence_find (sub s : str) (from i : nat) :
  sub <> [] -> next_occurrence sub s from i ->
  find sub (skipn from s) = Some (i - from).
Proof.
  intros Hsub (Hle & Hocc & Hfirst).
  pose proof (occurs_at_bound _ _ _ Hsub Hocc) as Hb.
  apply find_first.
  - unfold occurs_at in *. rewrite skipn_skipn.
    now replace (i - from + from) with i by lia.
  - rewrite length_skipn. lia.
  - intros k Hk Hc. apply (Hfirst (from + k)); try lia.
    unfold occurs_at in *. rewrite skipn_skipn in Hc.
    now rewrite (Nat.add_comm from).
Qed.

Lemma find_next_occurrence (sub s : str) (from k : nat) :
  find sub (skipn from s) = Some k -> from <= length s ->
  next_occurrence sub s from (from + k).
Proof.
  intros F Hfrom. apply find_Some in F as (H1 & H2 & H3).
  unfold next_occurrence, occurs_at in *. rewrite skipn_skipn in H1.
  repeat split; [lia|now rewrite (Nat.add_comm from)|].
  intros j Hj1 Hj2 Hc. apply (H3 (j - from)); [lia|].
  rewrite skipn_skipn. now replace (j - from + from) with j by lia.
Qed.

(** Two delimiters: the frontmatter lies between them, the body after. *)
Lemma split_two (content : str) (i j : nat) :
  next_occurrence DELIM content 0 i ->
  next_occurrence DELIM content (i + 3) j ->
  split_frontmatter content
  = (firstn (j - (i + 3)) (skipn (i + 3) content), skipn (j + 3) content, false).
Proof.
  intros H1 H2.
  assert (Hd : DELIM <> []) by discriminate.
  pose proof (next_occurrence_find _ _ _ _ Hd H1) as F1.
  pose proof (next_occurrence_find _ _ _ _ Hd H2) as F2.
  rewrite Nat.sub_0_r in F1. cbn [skipn] in F1.
  unfold split_frontmatter. fold DELIM. cbn [split].
  rewrite F1. change (length DELIM) with 3. rewrite F2.
  cbn [length Nat.ltb Nat.leb nth]. rewrite skipn_skipn.
  destruct H2 as (Hle & _). do 2 f_equal. f_equal. lia.
Qed.

(** Fewer than two: everything is body, and the warning flag is set. *)
Lemma split_fewer (content : str) :
  (forall i j, next_occurrence DELIM content 0 i ->
               next_occurrence DELIM content (i + 3) j -> False) ->
  split_frontmatter content = ([], content, true).
Proof.
  intros H. unfold split_frontmatter. fold DELIM. cbn [split].
  destruct (find DELIM content) as [i|] eqn:F1; [|reflexivity].
  change (length DELIM) with 3.
  destruct (find DELIM (skipn (i + 3) content)) as [k|] eqn:F2; [|reflexivity].
  exfalso. apply (H i (i + 3 + k)).
  - apply (find_next_occurrence DELIM content 0); [exact F1|lia].
  - pose proof (find_Some _ _ _ F1) as (Ho & _ & _).
    apply occurs_at_bound in Ho; [|discriminate].
    apply find_next_occurrence; [exact F2|]. change (length DELIM) with 3 in Ho. lia.
Qed.

(** C5. A document with fewer than two delimiters (counted from the left,
    the second one starting after the first one ends) is translated whole,
    with an empty frontmatter, after the warning is printed; with two or
    more, the frontmatter is the text between the first and the second
    delimiter and the body is everything after the second. *)
Theorem frontmatter_split (ext : externals) (file_path_str content : str) (st : state) :
  let path := parse file_path_str in
  let st1 := record (Exists (to_str path)) st in
  let st2 := record (ReadFile (to_str path))
               (record (Stdout [T `"Processing Post: "; T (name path)]) st1) in
  path_exists ext (trace st1) = true ->
  read_text ext (trace st2) = Return content ->
  ((forall i j, next_occurrence DELIM content 0 i ->
                next_occurrence DELIM content (i + 3) j -> False) ->
   process_file ext file_path_str st
   = for_each LANGS (translate_to ext path [] content)
       (record (Stdout [T `"[Warning] No Frontmatter detected. Translating entire content."]) st2))
  /\
  (forall i j, next_occurrence DELIM content 0 i ->
               next_occurrence DELIM content (i + 3) j ->
   process_file ext file_path_str st
   = for_each LANGS
       (translate_to ext path (firstn (j - (i + 3)) (skipn (i + 3) content))
          (skipn (j + 3) content))
       st2).
Proof.
  intros path st1 st2 Hex Hread.
  assert (Hrun : forall fm body warn, split_frontmatter content = (fm, body, warn) ->
    process_file ext file_path_str st
    = ((if warn
        then print [T `"[Warning] No Frontmatter detected. Translating entire content."]
        else ret tt) ;; for_each LANGS (translate_to ext path fm body)) st2).
  { intros fm body warn Hs. unfold process_file. fold path.
    subst st1 st2. cbn [record trace] in Hex, Hread.
    unfold bind at 1, ask at 1. rewrite Hex. cbn [negb].
    unfold bind at 1, print at 1. unfold bind at 1, call at 1.
    cbn [record trace]. rewrite Hread, Hs. reflexivity. }
  split.
  - intros H. now rewrite (Hrun _ _ _ (split_fewer _ H)).
  - intros i j H1 H2. now rewrite (Hrun _ _ _ (split_two _ _ _ H1 H2)).
Qed.

(* ================================================================== *)
(** * Paths *)
(* ================================================================== *)


Lemma startswith_firstn (p s : str) (n : nat) :
  startswith p (firstn n s) = true -> startswith p s = true.
Proof.
  revert s n; induction p as [|x p IH]; intros s n H; [reflexivity|].
  destruct s as [|y s]; [now rewrite firstn_nil in H|].
  destruct n as [|n]; [discriminate|].
  simpl in *. apply andb_true_iff in H as [-> H]. simpl. eapply IH, H.
Qed.

Lemma find_before_first (sub s : str) (i : nat) :
  sub <> [] -> find sub s = Some i -> find sub (firstn i s) = None.
Proof.
  intros Hsub F. apply find_Some in F as (_ & Hi & Hfirst).
  apply find_none_intro. intros k Hk Hc.
  rewrite length_firstn in Hk.
  destruct (Nat.eq_dec k i) as [->|Hne].
  - apply occurs_at_bound in Hc; [|exact Hsub].
    rewrite length_firstn in Hc. destruct sub; [congruence|]. simpl in Hc. lia.
  - apply (Hfirst k); [lia|]. unfold occurs_at in *.
    rewrite skipn_firstn_comm in Hc. eapply startswith_firstn, Hc.
Qed.

(** A split with enough cuts leaves no separator in any part. *)
Lemma split_parts_clean (sep : str) (fuel : nat) (s : str) :
  sep <> [] -> length s <= fuel ->
  Forall (fun p => find sep p = None) (split sep fuel s).
Proof.
  intros Hsep. revert s; induction fuel as [|n IH]; intros s Hs.
  - destruct s; [|simpl in Hs; lia]. constructor; [|constructor].
    destruct sep; [congruence|reflexivity].
  - cbn [split]. destruct (find sep s) as [i|] eqn:F.
    + constructor; [now apply find_before_first|].
      apply IH. rewrite length_skipn. destruct sep; [congruence|].
      cbn [length] in *. lia.
    + constructor; [exact F|constructor].
Qed.

Lemma parse_parts_clean (s c : str) :
  In c (parts (parse s)) -> is_component c = true /\ find SLASH c = None.
Proof.
  unfold parse; cbn [parts]. intros H. apply filter_In in H as [H Hc].
  split; [exact Hc|].
  pose proof (split_parts_clean SLASH (length s) s) as Hall.
  rewrite Forall_forall in Hall. apply Hall; [discriminate|lia|exact H].
Qed.

(** A single component parses to itself. *)
Lemma parse_component (c : str) :
  is_component c = true -> find SLASH c = None ->
  startswith SLASH c = false /\ parts (parse c) = [c].
Proof.
  intros Hc F. destruct c as [|x c]; [discriminate|].
  assert (Hs : startswith SLASH (x :: c) = false).
  { cbn [find] in F. destruct (startswith SLASH (x :: c)); [discriminate|reflexivity]. }
  split; [exact Hs|].
  unfold parse; cbn [parts length split]. fold SLASH. rewrite F.
  cbn [filter]. now rewrite Hc.
Qed.

Lemma last_in {A} (l : list A) (d : A) : l <> [] -> In (last l d) l.
Proof.
  induction l as [|x l IH]; [congruence|]. intros _.
  destruct l as [|y l]; [now left|]. right. apply IH. discriminate.
Qed.

Lemma lang_code (lang : str) :
  In lang LANGS ->
  startswith SLASH (lower lang) = false /\ parts (parse (lower lang)) = [lower lang].
Proof.
  intros [<-|[<-|[]]]; split; reflexivity.
Qed.

(** C7. The output path. When the path has the segment [/ko/], the
    segment is replaced by the lower-cased target code (every such segment,
    found from the left); with a single segment the rest of the path is
    unchanged. When it has none, the output is the file's directory, then
    a directory named by the lower-cased code, then the file's name. *)
Theorem output_path (file_path_str lang : str) :
  In lang LANGS ->
  let path := parse file_path_str in
  let seg := `"/" ++ lower lang ++ `"/" in
  (forall a b,
     to_str path = a ++ `"/ko/" ++ b ->
     find `"/ko/" (to_str path) = Some (length a) ->
     target_path_str path lang = a ++ seg ++ replace `"/ko/" seg b
     /\ (find `"/ko/" b = None -> target_path_str path lang = a ++ seg ++ b))
  /\
  (contains `"/ko/" (to_str path) = false -> parts path <> [] ->
   target_path_str path lang
   = to_str {| root := root path;
               parts := removelast (parts path) ++ [lower lang; name path] |}).
Proof.
  intros Hlang path seg. split.
  - intros a b Hstr F.
    assert (E : target_path_str path lang = a ++ seg ++ replace `"/ko/" seg b).
    { unfold target_path_str, contains. rewrite F. fold seg.
      rewrite (replace_first _ seg _ (length a)); [|discriminate|exact F].
      rewrite Hstr at 1 2.
      rewrite firstn_app, Nat.sub_diag, firstn_all; cbn [firstn]. rewrite app_nil_r.
      rewrite skipn_app, skipn_all2 by lia. cbn [app].
      replace (length a + length `"/ko/" - length a) with (length `"/ko/") by lia.
      rewrite skipn_app, skipn_all, Nat.sub_diag. reflexivity. }
    split; [exact E|]. intros Fb. now rewrite E, replace_absent.
  - intros Hno Hparts. unfold target_path_str. rewrite Hno.
    destruct (lang_code lang Hlang) as [Hl1 Hl2].
    destruct (parse_parts_clean file_path_str (name path)) as [Hn1 Hn2].
    { apply last_in. exact Hparts. }
    destruct (parse_component _ Hn1 Hn2) as [Hn3 Hn4].
    unfold joinpath. fold SLASH. rewrite Hl1. cbn [parts root parent].
    rewrite Hn3, Hl2, Hn4. cbn [parts root]. now rewrite <- app_assoc.
Qed.

(* ================================================================== *)
(** * Reassembly *)
(* ================================================================== *)

(** What [_call_llm] returns is the stripped reply (for tags, cleaned of
    code fences and stripped again). *)
Lemma call_llm_result (ext : externals) (text lang : str) (is_metadata is_tags : bool)
    (st st' : state) (x : str) :
  _call_llm ext text lang is_metadata is_tags st = (Return x, st') ->
  exists r,
    x = if is_tags
        then strip (replace `"```" [] (replace `"```json" [] (strip (content r))))
        else strip (content r).
Proof.
  unfold _call_llm.
  unfold bind at 1, print at 1. unfold bind at 1, ask at 1.
  unfold bind at 1, call at 1.
  destruct (ollama_chat ext _) as [response|e]; [|discriminate].
  unfold bind at 1, ask at 1. unfold bind at 1.
  destruct (tps response _) as [[rate|e] s1]; [|discriminate].
  unfold bind at 1.
  destruct (log_inference _ _ _ _ _ _ _ _ _ _) as [[[]|e] s2]; [|discriminate].
  unfold bind at 1, call at 1.
  destruct (ollama_generate ext _) as [[]|e]; [|discriminate].
  unfold ret. intros H. exists response. now inversion H.
Qed.

(** C6, as the code has it. The output is always the delimiter, the
    translated frontmatter, the delimiter, one blank line, the translated
    body without white space at its ends, and one newline: the first
    delimiter is at offset 0 and the second right after the frontmatter
    (when the translated frontmatter brings no delimiter of its own), and
    the spacing around the body is this fixed one, whatever the input had. *)
Theorem reassembly_layout (ext : externals) (path : Path)
    (frontmatter body lang fm' b' : str) (st st1 st2 : state) :
  (match frontmatter with
   | _ :: _ => _translate_frontmatter ext frontmatter lang
   | [] => ret []
   end) (record (Stdout [T ([newline] ++ `"--- Starting "); T lang;
                        T `" Translation ---"]) st) = (Return fm', st1) ->
  _call_llm ext (strip body) lang false false st1 = (Return b', st2) ->
  let out := `"---" ++ fm' ++ `"---" ++ [newline; newline] ++ b' ++ [newline] in
  let target := parse (target_path_str path lang) in
  translate_to ext path frontmatter body lang st
  = (call (Mkdir (to_str (parent target))) (mkdir ext) ;;
     call (WriteFile (to_str target) out) (write_text ext) ;;
     print [T `"[Saved] "; T (to_str target)]) st2
  /\ lstrip b' = b' /\ rstrip b' = b'
  /\ (next_occurrence DELIM out 3 (3 + length fm') ->
      split_frontmatter out = (fm', [newline; newline] ++ b' ++ [newline], false)).
Proof.
  intros Hfm Hbody out target. split; [|split; [|split]].
  - unfold translate_to. unfold bind at 1, print at 1.
    fold (record (Stdout [T ([newline] ++ `"--- Starting "); T lang;
                         T `" Translation ---"]) st).
    erewrite bind_return by exact Hfm.
    erewrite bind_return by exact Hbody. reflexivity.
  - apply call_llm_result in Hbody as [r ->]. apply strip_stripped.
  - apply call_llm_result in Hbody as [r ->]. apply strip_stripped.
  - intros H2.
    rewrite (split_two out 0 (3 + length fm')).
    + set (rest := [newline; newline] ++ b' ++ [newline]).
      assert (E1 : skipn (0 + 3) out = fm' ++ DELIM ++ rest) by reflexivity.
      assert (E2 : out = (DELIM ++ fm' ++ DELIM) ++ rest).
      { subst out rest. now rewrite <- !app_assoc. }
      rewrite E1. rewrite E2 at 1.
      replace (3 + length fm' - (0 + 3)) with (length fm') by lia.
      rewrite firstn_app, Nat.sub_diag, firstn_all; cbn [firstn]. rewrite app_nil_r.
      rewrite skipn_app, skipn_all2 by (rewrite !length_app; simpl; lia).
      replace (3 + length fm' + 3 - length (DELIM ++ fm' ++ DELIM)) with 0
        by (rewrite !length_app; simpl; lia).
      reflexivity.
    + split; [lia|split; [reflexivity|intros k _ Hk; lia]].
    + exact H2.
Qed.

(* ================================================================== *)
(** * The frontmatter transcoder *)
(* ================================================================== *)

Lemma transcoder_steps (ext : externals) (raw lang : str) :
  _translate_frontmatter ext raw lang
  = (n1 <- title_step ext raw lang raw ;;
     n2 <- description_step ext raw lang n1 ;;
     tags_step ext raw lang n2).
Proof. reflexivity. Qed.

Lemma splice_quoted (a t t' b : str) :
  firstn (S (length a)) (a ++ quoted t ++ b) ++ t'
    ++ skipn (S (length a) + length t) (a ++ quoted t ++ b)
  = a ++ quoted t' ++ b.
Proof.
  unfold quoted.
  replace (a ++ ([squote] ++ t ++ [squote]) ++ b)
    with ((a ++ [squote]) ++ t ++ [squote] ++ b)
    by (now rewrite <- !app_assoc).
  replace (S (length a)) with (length (a ++ [squote]))
    by (rewrite length_app; simpl; lia).
  rewrite firstn_app, Nat.sub_diag, firstn_all; cbn [firstn]. rewrite app_nil_r.
  rewrite skipn_app, skipn_all2 by lia.
  replace (length (a ++ [squote]) + length t - length (a ++ [squote]))
    with (length t) by lia.
  rewrite skipn_app, skipn_all, Nat.sub_diag. cbn [skipn app].
  now rewrite <- !app_assoc.
Qed.

(** C2, as the code has it. A tags translation that lacks a bracket is
    discarded: the transcoder returns the block exactly as the title and
    description steps left it, after printing the warning. A translation
    with both brackets replaces the original bracket literal wherever that
    block has it: at the one place, if it occurs once. *)
Theorem tags_checked (ext : externals) (raw lang new reply : str) (m : match_obj)
    (st st1 st2 : state) :
  search tags_re raw = Some m ->
  (n1 <- title_step ext raw lang raw ;; description_step ext raw lang n1) st
  = (Return new, st1) ->
  _call_llm ext (group1 tags_re m) lang false true st1 = (Return reply, st2) ->
  let original := group1 tags_re m in
  let valid := contains `"[" reply && contains `"]" reply in
  (valid = false ->
   _translate_frontmatter ext raw lang st
   = (Return new, record (Stdout TAGS_WARNING) st2))
  /\
  (valid = true ->
   _translate_frontmatter ext raw lang st = (Return (replace original reply new), st2)
   /\ forall a b, new = a ++ original ++ b ->
        find original new = Some (length a) -> find original b = None ->
        replace original reply new = a ++ reply ++ b).
Proof.
  intros Hm Hfirst Hcall original valid.
  assert (Hrun : _translate_frontmatter ext raw lang st
                 = tags_step ext raw lang new st1).
  { rewrite transcoder_steps. unfold bind in *.
    destruct (title_step ext raw lang raw st) as [[n1|e] s1]; [|discriminate].
    now rewrite Hfirst. }
  rewrite Hrun. unfold tags_step. rewrite Hm. fold original.
  erewrite bind_return by exact Hcall. fold valid.
  split; intros Hv; rewrite Hv.
  - reflexivity.
  - split; [reflexivity|]. intros a b -> F Fb.
    apply replace_once; [|exact F|exact Fb].
    intros E. pose proof (find_Some _ _ _ F) as (Ho & _).
    subst original. rewrite E in Fb. destruct b; discriminate.
Qed.

(** C3, as the code has it. The transcoder has no exception scope of its
    own: a model-call failure in a field step ends the transcoder with
    that failure, in the state the failed call left, so the later fields
    are not attempted and nothing is spliced. *)
Theorem field_failure_propagates (ext : externals) (raw lang : str) (st : state) :
  (forall m e st',
     search title_re raw = Some m ->
     _call_llm ext (group1 title_re m) lang true false st = (Raise e, st') ->
     _translate_frontmatter ext raw lang st = (Raise e, st'))
  /\
  (forall n1 st1 m e st',
     title_step ext raw lang raw st = (Return n1, st1) ->
     search description_re raw = Some m ->
     _call_llm ext (group1 description_re m) lang true false st1 = (Raise e, st') ->
     _translate_frontmatter ext raw lang st = (Raise e, st'))
  /\
  (forall n1 st1 n2 st2 m e st',
     title_step ext raw lang raw st = (Return n1, st1) ->
     description_step ext raw lang n1 st1 = (Return n2, st2) ->
     search tags_re raw = Some m ->
     _call_llm ext (group1 tags_re m) lang false true st2 = (Raise e, st') ->
     _translate_frontmatter ext raw lang st = (Raise e, st')).
Proof.
  rewrite transcoder_steps. repeat split.
  - intros m e st' Hm Hcall. unfold title_step. rewrite Hm.
    erewrite bind_raise; [reflexivity|].
    erewrite bind_raise; [reflexivity|exact Hcall].
  - intros n1 st1 m e st' H1 Hm Hcall.
    erewrite bind_return by exact H1. unfold description_step. rewrite Hm.
    erewrite bind_raise; [reflexivity|].
    erewrite bind_raise; [reflexivity|exact Hcall].
  - intros n1 st1 n2 st2 m e st' H1 H2 Hm Hcall.
    erewrite bind_return by exact H1. erewrite bind_return by exact H2.
    unfold tags_step. rewrite Hm.
    erewrite bind_raise; [reflexivity|exact Hcall].
Qed.

(* ================================================================== *)
(** * Failures: languages, files and the metrics sink *)
(* ================================================================== *)


Lemma round_stays_in_language (ext : externals) (path : Path) (frontmatter body lang : str) :
  emits (round_event path lang) (translate_to ext path frontmatter body lang).
Proof.
  apply emits_translate_to.
  - intros [] H; simpl in *; try contradiction; exact I.
  - intros system user. reflexivity.
  - intros dir. exact I.
  - intros content. reflexivity.
Qed.

(** C4, as the code has it. The loop over the languages has no exception
    scope: a failure in the round for EN ends the loop with that failure,
    in the state the failed round left, where every inference request made
    went to the EN model and no file but the EN output was written; the
    round for JP is not run. The caller catches the failure of
    [process_file] per file: it prints the error and goes on with the next
    file. *)
Theorem language_failure_ends_file (ext : externals) :
  (forall path frontmatter body st e st',
     translate_to ext path frontmatter body `"EN" st = (Raise e, st') ->
     for_each LANGS (translate_to ext path frontmatter body) st = (Raise e, st')
     /\ exists new, trace st' = new ++ trace st
                    /\ Forall (round_event path `"EN") new)
  /\
  (forall file rest st msg st',
     process_file ext (to_str file) st = (Raise (Exception msg), st') ->
     process_files ext (file :: rest) st
     = process_files ext rest
         (record (Stdout [T ([newline] ++ `"[ERROR] processing "); T (name file);
                         T `": "; T msg]) st')).
Proof.
  split.
  - intros path frontmatter body st e st' H. split.
    + cbn [LANGS for_each]. erewrite bind_raise; [reflexivity|exact H].
    + destruct (round_stays_in_language ext path frontmatter body `"EN" st)
        as (new & E & F).
      rewrite H in E. now exists new.
  - intros file rest st msg st' H.
    unfold process_files at 1. cbn [for_each].
    unfold bind at 1, try_except at 1. rewrite H. reflexivity.
Qed.

(** The sink swallows a failed connection attempt and tries again on the
    next record. *)
Lemma sink_down_is_silent (ext : externals) model src tgt input output latency rate score
    (st : state) (msg : str) :
  conn st = false ->
  psycopg2_connect ext (Connect :: trace st) = Raise (Exception msg) ->
  log_inference ext model src tgt input output latency rate score st
  = (Return tt,
     {| trace := Stdout [T `"[Monitor Error] DB Connection failed: "; T msg]
                   :: Connect :: trace st;
        conn := false |}).
Proof.
  intros Hc Hdown. unfold log_inference.
  unfold bind at 1, get_conn at 1. rewrite Hc.
  unfold bind at 1, _connect, try_except.
  unfold bind at 1, call at 1. rewrite Hdown.
  unfold print, record. cbn [trace conn]. unfold bind, get_conn. cbn [conn].
  rewrite Hc. reflexivity.
Qed.

(** With a connection held, a failed INSERT is printed and rolled back;
    what [rollback] does then is what [log_inference] does: the handler
    has no guard of its own. *)
Lemma sink_insert_failure (ext : externals) model src tgt input output latency rate score
    (st : state) (msg : str) :
  conn st = true ->
  let row := {| model_name := model; source_lang := src; target_lang := tgt;
                input_length := length input; output_length := length output;
                latency_ms := latency; tokens_per_sec := rate;
                similarity_score := score;
                input_text := input; output_text := output |} in
  let failed := Stdout [T `"[Monitor Error] Failed to insert log: "; T msg]
                  :: Insert row :: trace st in
  conn_insert ext (Insert row :: trace st) = Raise (Exception msg) ->
  log_inference ext model src tgt input output latency rate score st
  = (conn_rollback ext (Rollback :: failed),
     {| trace := Rollback :: failed; conn := true |}).
Proof.
  intros Hc row failed Hins. unfold log_inference.
  unfold bind at 1, get_conn at 1. rewrite Hc.
  unfold try_except. unfold bind at 1, call at 1. fold row. rewrite Hins.
  unfold bind, print, call, record. cbn [trace conn]. now rewrite Hc.
Qed.

(* ================================================================== *)
(** * The claims on sample documents *)
(* ================================================================== *)

(** C1 fails on the code. With [title: 'AI'] and [alias: 'AI'] in one
    block, both quoted texts are rewritten, not the title's alone; and a
    title in double quotes is translated but never replaced. *)
Lemma title_splice_counterexample :
  fst (_translate_frontmatter glossary block_recurring `"EN" start)
  = Return (`"title: 'KI'" ++ [newline] ++ `"alias: 'KI'" ++ [newline])
  /\ title_spliced block_recurring KI
     = `"title: 'KI'" ++ [newline] ++ `"alias: 'AI'" ++ [newline]
  /\ fst (_translate_frontmatter glossary block_recurring `"EN" start)
     <> Return (title_spliced block_recurring KI)
  /\ chat_inputs (trace (snd (_translate_frontmatter glossary block_double_quoted `"EN" start)))
     = [(`"gemma2:9b", AI)]
  /\ fst (_translate_frontmatter glossary block_double_quoted `"EN" start)
     = Return block_double_quoted
  /\ fst (_translate_frontmatter glossary block_double_quoted `"EN" start)
     <> Return (title_spliced block_double_quoted KI).
Proof.
  repeat split; try (vm_compute; reflexivity); vm_compute; discriminate.
Qed.

(** C2 fails on the code. The title ['AI'] is also a tag: the title step
    rewrites the tag before the tags step runs. The tags translation has no
    bracket and is discarded with the warning, and still the tags field of
    the output is not the original one; and a translation with both
    brackets finds no original literal left to replace. *)
Lemma tags_kept_counterexample :
  chat_inputs (trace (snd (_translate_frontmatter glossary_bad_tags block_title_tags `"EN" start)))
  = [(`"gemma2:9b", `"['AI']"); (`"gemma2:9b", AI)]
  /\ In (Stdout TAGS_WARNING)
       (trace (snd (_translate_frontmatter glossary_bad_tags block_title_tags `"EN" start)))
  /\ fst (_translate_frontmatter glossary_bad_tags block_title_tags `"EN" start)
     = Return (`"title: 'KI'" ++ [newline] ++ `"tags: ['KI']" ++ [newline])
  /\ tags_field block_title_tags = Some `"['AI']"
  /\ tags_field (`"title: 'KI'" ++ [newline] ++ `"tags: ['KI']" ++ [newline])
     <> tags_field block_title_tags
  /\ fst (_translate_frontmatter glossary_good_tags block_title_tags `"EN" start)
     = Return (`"title: 'KI'" ++ [newline] ++ `"tags: ['KI']" ++ [newline])
  /\ tags_field (`"title: 'KI'" ++ [newline] ++ `"tags: ['KI']" ++ [newline])
     <> Some `"['Intelligenz']".
Proof.
  repeat split; try (vm_compute; reflexivity); try (vm_compute; discriminate).
  vm_compute. tauto.
Qed.

Lemma tags_checked_witness :
  fst (_translate_frontmatter glossary_no_list block_tags `"EN" start) = Return block_tags
  /\ In (Stdout TAGS_WARNING)
       (trace (snd (_translate_frontmatter glossary_no_list block_tags `"EN" start))).
Proof.
  edestruct tags_checked
    with (ext := glossary_no_list)
         (raw := block_tags) (lang := `"EN") (st := start) as [Hbad _];
    [vm_compute; reflexivity | vm_compute; reflexivity | vm_compute; reflexivity |].
  rewrite Hbad by (vm_compute; reflexivity).
  split; [reflexivity|]. now left.
Defined.

(** C3 fails on the code. The model call for the title fails: the
    transcoder fails with it, and the description is never requested. *)
Lemma field_isolation_counterexample :
  fst (_translate_frontmatter title_fails block_title_description `"EN" start)
  = Raise (Exception `"connection refused")
  /\ chat_inputs (trace (snd (_translate_frontmatter title_fails
                                block_title_description `"EN" start)))
     = [(`"gemma2:9b", `"A")]
  /\ ~ In (`"gemma2:9b", `"B")
         (chat_inputs (trace (snd (_translate_frontmatter title_fails
                                     block_title_description `"EN" start)))).
Proof.
  repeat split; try (vm_compute; reflexivity).
  vm_compute. intros [H|[]]. discriminate H.
Qed.

Lemma field_failure_propagates_witness :
  fst (_translate_frontmatter title_fails block_title_description `"EN" start)
  = Raise (Exception `"connection refused").
Proof.
  erewrite (proj1 (field_failure_propagates _ _ _ _)); cycle 1.
  all: vm_compute; reflexivity.
Defined.

(** C4 fails on the code. The EN model is down and the JP model would
    answer; the caller catches the failure of the file, but the JP round
    was never started: no request went to the JP model and nothing was
    written. *)
Lemma language_isolation_counterexample :
  fst (process_files en_model_down [parse post_path] start) = Return tt
  /\ chat_inputs (trace (snd (process_files en_model_down [parse post_path] start)))
     = [(`"gemma2:9b", `"A")]
  /\ writes (trace (snd (process_files en_model_down [parse post_path] start))) = []
  /\ ~ In (Stdout JP_BANNER)
         (trace (snd (process_files en_model_down [parse post_path] start))).
Proof.
  repeat split; try (vm_compute; reflexivity).
  vm_compute. intuition discriminate.
Qed.

Lemma language_failure_ends_file_witness :
  fst (for_each LANGS
         (translate_to en_model_down (parse post_path) `"title: 'A'" `"Body") start)
  = Raise (Exception `"connection refused")
  /\ fst (process_files en_model_down [parse post_path; parse note_path] start)
     = Return tt.
Proof.
  split.
  - edestruct (proj1 (language_failure_ends_file en_model_down)) as [H _];
      [|rewrite H; reflexivity].
    vm_compute; reflexivity.
  - erewrite (proj2 (language_failure_ends_file _)); cycle 1.
    all: vm_compute; reflexivity.
Defined.

Lemma frontmatter_split_witness :
  process_file (calm post_plain []) post_path start
  = for_each LANGS (translate_to (calm post_plain []) (parse post_path) [] post_plain)
      (record (Stdout [T `"[Warning] No Frontmatter detected. Translating entire content."])
         (record (ReadFile post_path)
            (record (Stdout [T `"Processing Post: "; T `"post.mdx"])
               (record (Exists post_path) start))))
  /\ process_file (calm post []) post_path start
     = for_each LANGS
         (translate_to (calm post []) (parse post_path)
            ([newline] ++ `"title: 'A'" ++ [newline])
            ([newline; newline] ++ `"Body" ++ [newline]))
         (record (ReadFile post_path)
            (record (Stdout [T `"Processing Post: "; T `"post.mdx"])
               (record (Exists post_path) start))).
Proof.
  split.
  - apply (proj1 (frontmatter_split (calm post_plain []) post_path post_plain start
                    eq_refl eq_refl)).
    intros i j H1 _.
    apply next_occurrence_find in H1; [|discriminate]. vm_compute in H1. discriminate.
  - apply (proj2 (frontmatter_split (calm post []) post_path post start
                    eq_refl eq_refl) 0 15).
    + apply (find_next_occurrence DELIM post 0 0); [reflexivity|vm_compute; lia].
    + apply (find_next_occurrence DELIM post 3 12); [reflexivity|vm_compute; lia].
Defined.

(** C6 fails on the code. The model returns every text unchanged, so the
    output differs from the input by the reassembly alone: the input has
    one newline between the closing delimiter and the body and none after
    it, the output has a blank line before the body and a newline after. *)
Lemma spacing_counterexample :
  writes (trace (snd (process_file (calm post_tight []) post_path start)))
  = [(jp_path, post); (en_path, post)]
  /\ post <> post_tight
  /\ spacing_before (body_of post_tight) = [newline]
  /\ spacing_before (body_of post) = [newline; newline]
  /\ spacing_before (body_of post) <> spacing_before (body_of post_tight)
  /\ spacing_after (body_of post) <> spacing_after (body_of post_tight).
Proof.
  repeat split; try (vm_compute; reflexivity); vm_compute; discriminate.
Qed.

Lemma reassembly_layout_witness :
  split_frontmatter post
  = ([newline] ++ `"title: 'A'" ++ [newline],
     [newline; newline] ++ `"Body" ++ [newline], false)
  /\ lstrip `"Body" = `"Body".
Proof.
  edestruct reassembly_layout
    with (ext := calm post_tight []) (path := parse post_path)
         (frontmatter := [newline] ++ `"title: 'A'" ++ [newline])
         (body := [newline] ++ `"Body") (lang := `"EN") (st := start)
    as (_ & H2 & _ & H4);
    [vm_compute; reflexivity | vm_compute; reflexivity |].
  split; [|exact H2].
  apply H4.
  apply (find_next_occurrence DELIM _ 3 12); [reflexivity|vm_compute; lia].
Defined.

Lemma output_path_witness :
  target_path_str (parse post_path) `"EN" = en_path
  /\ target_path_str (parse note_path) `"JP" = `"/home/hun/notes/jp/post.mdx".
Proof.
  split.
  - apply (proj2 (proj1 (output_path post_path `"EN" (or_introl eq_refl))
                    `"/home/hun/blog/src/content/blog" `"post.mdx" eq_refl eq_refl)).
    reflexivity.
  - apply (proj2 (output_path note_path `"JP" (or_intror (or_introl eq_refl))));
      [reflexivity|discriminate].
Defined.

(** C8: the code at the failing input. The monitor holds a connection and
    the database goes away: the INSERT fails, the handler prints the error
    and calls [rollback] on the dead connection, which raises; the failure
    leaves [log_inference], ends the translation of the file, and no output
    is written, although every translation succeeded. With the database
    reachable, or unreachable from the start, both outputs are written. *)
Theorem sink_outage_reaches_pipeline :
  fst (log_inference database_goes_away `"gemma2:9b" `"KO" `"EN" `"A" `"A"
         1 50 (95 # 100) connected)
  = Raise (Exception `"connection already closed")
  /\ fst (_call_llm database_goes_away `"A" `"EN" true false connected)
     = Raise (Exception `"connection already closed")
  /\ writes (trace (snd (main database_goes_away [parse post_path] start))) = []
  /\ writes (trace (snd (main (calm post []) [parse post_path] start)))
     = [(jp_path, post); (en_path, post)]
  /\ writes (trace (snd (main (database_down (calm post [])) [parse post_path] start)))
     = [(jp_path, post); (en_path, post)].
Proof.
  repeat split; vm_compute; reflexivity.
Qed.

(* ================================================================== *)
(** * More about the document split *)
(* ================================================================== *)

Lemma split_not_nil (sep : str) (n : nat) (s : str) : split sep n s <> [].
Proof.
  destruct n; cbn [split]; [discriminate|].
  destruct (find sep s); discriminate.
Qed.

Lemma join_cons (sep x : str) (l : list str) :
  l <> [] -> join sep (x :: l) = x ++ sep ++ join sep l.
Proof. destruct l; [congruence|reflexivity]. Qed.

(** Joining the parts of a split with the separator gives the text back. *)
Lemma join_split (sep : str) (n : nat) (s : str) :
  join sep (split sep n s) = s.
Proof.
  revert s; induction n as [|n IH]; intros s; cbn [split]; [reflexivity|].
  destruct (find sep s) as [i|] eqn:F; [|reflexivity].
  rewrite join_cons by apply split_not_nil. rewrite IH.
  apply find_Some in F as (Ho & Hi & _).
  symmetry. now apply occurs_at_split.
Qed.

(** The split loses nothing between the delimiters and after them. When
    no warning is raised, the content is some text without a delimiter,
    the delimiter, the frontmatter (without a delimiter), the delimiter
    and the body; the text before the first delimiter is in neither part.
    When the warning is raised, the frontmatter is empty and the body is
    the whole content. *)
Theorem split_frontmatter_decomposes (content frontmatter body : str) (warn : bool) :
  split_frontmatter content = (frontmatter, body, warn) ->
  if warn then frontmatter = [] /\ body = content
  else exists before_first,
         content = before_first ++ DELIM ++ frontmatter ++ DELIM ++ body
         /\ find DELIM before_first = None
         /\ find DELIM frontmatter = None.
Proof.
  unfold split_frontmatter. fold DELIM. cbn [split].
  destruct (find DELIM content) as [i|] eqn:F1.
  - change (length DELIM) with 3.
    destruct (find DELIM (skipn (i + 3) content)) as [j|] eqn:F2;
      cbn [length Nat.ltb Nat.leb nth]; intros H; inversion H; subst; clear H.
    + exists (firstn i content). repeat split.
      * pose proof (find_Some _ _ _ F1) as (Ho1 & Hi1 & _).
        pose proof (find_Some _ _ _ F2) as (Ho2 & Hi2 & _).
        transitivity (firstn i content ++ DELIM ++ skipn (i + 3) content);
          [now apply occurs_at_split|].
        do 2 f_equal. exact (occurs_at_split DELIM _ j Ho2 Hi2).
      * apply find_before_first; [discriminate|exact F1].
      * apply find_before_first; [discriminate|exact F2].
    + now split.
  - cbn [length Nat.ltb Nat.leb]. intros H; inversion H; subst. now split.
Qed.

Lemma split_frontmatter_decomposes_witness :
  exists before_first,
    post = before_first ++ DELIM ++ ([newline] ++ `"title: 'A'" ++ [newline])
             ++ DELIM ++ ([newline; newline] ++ `"Body" ++ [newline])
    /\ find DELIM before_first = None
    /\ find DELIM ([newline] ++ `"title: 'A'" ++ [newline]) = None.
Proof.
  apply (split_frontmatter_decomposes post _ _ false). reflexivity.
Defined.

(* ================================================================== *)
(** * What the inference call returns *)
(* ================================================================== *)

Lemma find_none_skipn (sub s : str) (k : nat) :
  find sub s = None -> find sub (skipn k s) = None.
Proof.
  intros F. apply find_none_intro. intros j _ Hc.
  apply (find_None _ _ F (k + j)). unfold occurs_at in *.
  now rewrite skipn_skipn, (Nat.add_comm j) in Hc.
Qed.

Lemma find_none_firstn (sub s : str) (k : nat) :
  find sub s = None -> find sub (firstn k s) = None.
Proof.
  intros F. apply find_none_intro. intros j _ Hc.
  apply (find_None _ _ F j). unfold occurs_at in *.
  rewrite skipn_firstn_comm in Hc. eapply startswith_firstn, Hc.
Qed.

Lemma lstrip_is_skipn (s : str) : exists k, lstrip s = skipn k s.
Proof.
  induction s as [|c s [k IH]]; [now exists 0|]. simpl.
  destruct (isspace c); [now exists (S k)|now exists 0].
Qed.

(** [strip] cuts at the ends only: what does not occur in a text does not
    occur in the stripped text. *)
Lemma find_none_strip (sub s : str) :
  find sub s = None -> find sub (strip s) = None.
Proof.
  intros F. unfold strip, rstrip.
  destruct (lstrip_is_skipn s) as [k ->].
  destruct (lstrip_is_skipn (rev (skipn k s))) as [j ->].
  rewrite skipn_rev, rev_involutive.
  now apply find_none_firstn, find_none_skipn.
Qed.

Section Fence.

Variable c : char.
Let ccc : str := [c; c; c].

Lemma ccc_joint (a b : str) :
  (forall p, a <> p ++ [c]) ->
  find ccc a = None -> find ccc b = None -> find ccc (a ++ b) = None.
Proof.
  induction a as [|x a IH]; intros Hend Fa Fb; [exact Fb|].
  cbn [find] in Fa. destruct (startswith ccc (x :: a)) eqn:Sa; [discriminate|].
  destruct (find ccc a) eqn:Fa'; [discriminate|].
  assert (Hrec : find ccc (a ++ b) = None).
  { destruct a as [|y a']; [exact Fb|]. apply IH; [|reflexivity|exact Fb].
    intros p E. apply (Hend (x :: p)). now rewrite E. }
  cbn [app find]. rewrite Hrec.
  assert (Sab : startswith ccc (x :: a ++ b) = false); [|now rewrite Sab].
  subst ccc. cbn [startswith] in *.
  destruct (char_eqb c x) eqn:Ex; [|reflexivity]. apply char_eqb_eq in Ex; subst x.
  destruct a as [|y a]; [exfalso; now apply (Hend [])|].
  cbn [app]. destruct (char_eqb c y) eqn:Ey; [|reflexivity].
  apply char_eqb_eq in Ey; subst y.
  destruct a as [|z a]; [exfalso; now apply (Hend [c])|].
  cbn [app]. cbn [andb] in Sa. destruct (char_eqb c z); [discriminate|reflexivity].
Qed.

Lemma ccc_first_is_leftmost (s : str) (i : nat) :
  find ccc s = Some i -> forall p, firstn i s <> p ++ [c].
Proof.
  intros F p E. pose proof (find_Some _ _ _ F) as (Ho & Hi & Hfirst).
  pose proof (occurs_at_split _ _ _ Ho Hi) as Hs. rewrite E in Hs.
  assert (Hlen : i = S (length p)).
  { apply (f_equal (@length char)) in E.
    rewrite length_firstn, length_app in E. simpl in E. lia. }
  apply (Hfirst (length p)); [lia|].
  unfold occurs_at. rewrite Hs, <- app_assoc, skipn_app, skipn_all, Nat.sub_diag.
  subst ccc. cbn. now rewrite !char_eqb_refl.
Qed.

(** Removing every run of three [c] leaves no run of three [c]. *)
Lemma ccc_removed (s : str) : find ccc (replace ccc [] s) = None.
Proof.
  remember (length s) as n eqn:Hn. revert s Hn.
  induction n as [n IH] using lt_wf_ind. intros s Hn.
  destruct (find ccc s) as [i|] eqn:F.
  - rewrite (replace_first ccc [] s i); [|discriminate|exact F]. cbn [app].
    pose proof (find_Some _ _ _ F) as (Ho & Hi & _).
    apply ccc_joint.
    + now apply ccc_first_is_leftmost.
    + apply find_before_first; [discriminate|exact F].
    + apply (IH (length (skipn (i + length ccc) s))); [|reflexivity].
      rewrite length_skipn. subst n. apply occurs_at_bound in Ho; [|discriminate].
      simpl in *. lia.
  - now rewrite replace_absent.
Qed.

End Fence.

(** The reply behind a returned text. *)
Lemma call_llm_reply (ext : externals) (text lang : str) (is_metadata is_tags : bool)
    (st st' : state) (x : str) :
  _call_llm ext text lang is_metadata is_tags st = (Return x, st') ->
  exists tr r,
    ollama_chat ext (Chat (model_name_for lang)
                       (system_prompt_for lang is_metadata is_tags) text :: tr)
    = Return r
    /\ x = if is_tags
           then strip (replace FENCE [] (replace `"```json" [] (strip (content r))))
           else strip (content r).
Proof.
  unfold _call_llm.
  unfold bind at 1, print at 1. unfold bind at 1, ask at 1.
  unfold bind at 1, call at 1.
  match goal with |- context [ollama_chat ext ?t] => destruct (ollama_chat ext t) as [response|e] eqn:Hchat end;
    [|discriminate].
  unfold bind at 1, ask at 1. unfold bind at 1.
  destruct (tps response _) as [[rate|e] s1]; [|discriminate].
  unfold bind at 1.
  destruct (log_inference _ _ _ _ _ _ _ _ _ _) as [[[]|e] s2]; [|discriminate].
  unfold bind at 1, call at 1.
  destruct (ollama_generate ext _) as [[]|e]; [|discriminate].
  unfold ret. intros H. eexists _, response. split; [exact Hchat|]. now inversion H.
Qed.


(** Every text the inference call returns has no white space at its
    ends, and a tags reply comes back without any code fence. *)
Theorem call_llm_text_is_clean (ext : externals) (text lang : str)
    (is_metadata is_tags : bool) (st st' : state) (x : str) :
  _call_llm ext text lang is_metadata is_tags st = (Return x, st') ->
  lstrip x = x /\ rstrip x = x /\ (is_tags = true -> find FENCE x = None).
Proof.
  intros H. apply call_llm_reply in H as (tr & r & _ & ->).
  destruct is_tags.
  - split; [apply strip_stripped|split; [apply strip_stripped|]].
    intros _. apply find_none_strip. apply (ccc_removed 96%N).
  - split; [apply strip_stripped|split; [apply strip_stripped|discriminate]].
Qed.

Lemma call_llm_text_is_clean_witness :
  lstrip `"['AI']" = `"['AI']" /\ rstrip `"['AI']" = `"['AI']"
  /\ (true = true -> find FENCE `"['AI']" = None).
Proof.
  eapply (call_llm_text_is_clean fencing `"['AI']" `"EN" false true start).
  vm_compute. reflexivity.
Defined.

(* ================================================================== *)
(** * More about the transcoder *)
(* ================================================================== *)

Lemma replace_scan_same (fuel : nat) (old s : str) : replace_scan fuel old old s = s.
Proof.
  revert s; induction fuel as [|f IH]; intros s; cbn [replace_scan]; [reflexivity|].
  destruct (find old s) as [i|] eqn:F; [|reflexivity].
  rewrite IH. apply find_Some in F as (Ho & Hi & _).
  symmetry. now apply occurs_at_split.
Qed.

Lemma replace_same (old s : str) : replace old old s = s.
Proof.
  unfold replace. destruct old; [|apply replace_scan_same].
  induction s as [|c s IH]; [reflexivity|]. cbn in *. now rewrite IH.
Qed.

(** A model that returns each captured text as it is leaves the block
    as it is: the transcoder's output is the input block, character for
    character. *)
Theorem echo_keeps_block (ext : externals) (raw lang : str) :
  (forall text is_metadata is_tags st x st',
     In text (captured_fields raw) ->
     _call_llm ext text lang is_metadata is_tags st = (Return x, st') -> x = text) ->
  forall st out st',
    _translate_frontmatter ext raw lang st = (Return out, st') -> out = raw.
Proof.
  intros Hecho st out st' H. rewrite transcoder_steps in H. unfold bind in H.
  destruct (title_step ext raw lang raw st) as [[n1|e] s1] eqn:E1; [|discriminate].
  destruct (description_step ext raw lang n1 s1) as [[n2|e] s2] eqn:E2; [|discriminate].
  assert (H1 : n1 = raw).
  { unfold title_step in E1. destruct (search title_re raw) as [m|] eqn:S.
    - unfold bind in E1.
      destruct (_call_llm ext _ lang true false st) as [[x|e] s] eqn:C; [|discriminate].
      apply Hecho in C; [|unfold captured_fields; rewrite S; now left].
      subst x. unfold ret in E1. injection E1 as Hn _. rewrite <- Hn.
      first [apply replace_same | apply replace_scan_same].
    - now inversion E1. }
  subst n1.
  assert (H2 : n2 = raw).
  { unfold description_step in E2. destruct (search description_re raw) as [m|] eqn:S.
    - unfold bind in E2.
      destruct (_call_llm ext _ lang true false s1) as [[x|e] s] eqn:C; [|discriminate].
      apply Hecho in C;
        [|unfold captured_fields; rewrite S; apply in_or_app; right;
          apply in_or_app; left; now left].
      subst x. unfold ret in E2. injection E2 as Hn _. rewrite <- Hn.
      first [apply replace_same | apply replace_scan_same].
    - now inversion E2. }
  subst n2.
  unfold tags_step in H. destruct (search tags_re raw) as [m|] eqn:S.
  - unfold bind in H.
    destruct (_call_llm ext _ lang false true s2) as [[x|e] s] eqn:C; [|discriminate].
    apply Hecho in C;
      [|unfold captured_fields; rewrite S; apply in_or_app; right;
        apply in_or_app; right; now left].
    subst x. destruct (contains _ _ && contains _ _).
    + unfold ret in H. injection H as Hn _. rewrite <- Hn.
      first [apply replace_same | apply replace_scan_same].
    + unfold print, ret in H. now inversion H.
  - now inversion H.
Qed.

Lemma echo_keeps_block_witness :
  fst (_translate_frontmatter echoing block_tags `"EN" start) = Return block_tags.
Proof.
  destruct (_translate_frontmatter echoing block_tags `"EN" start)
    as [[out|e] st'] eqn:R.
  - cbn [fst]. f_equal.
    eapply (echo_keeps_block echoing block_tags `"EN"); [|exact R].
    intros text md tg st x st0 Hin H.
    apply call_llm_reply in H as (tr & r & Hr & ->).
    vm_compute in Hin. destruct Hin as [<-|[]].
    inversion Hr; subst r. destruct tg; vm_compute; reflexivity.
  - vm_compute in R. discriminate.
Defined.

(* ================================================================== *)
(** * What the patterns capture *)
(* ================================================================== *)

(** The first atom of a match, and the match of the rest. *)
Lemma match_here_cons (a : atom) (r : list atom) (s : str) (ps : list str) :
  match_here (a :: r) s = Some ps ->
  exists x ps' s',
    ps = x :: ps' /\ s = x ++ s' /\ accepts a x /\ match_here r s' = Some ps'.
Proof.
  destruct a as [p|greedy p].
  - destruct s as [|c s]; [discriminate|]. cbn [match_here].
    destruct (p c) eqn:Hp; [|discriminate].
    destruct (match_here r s) as [ps'|] eqn:Hm; [|discriminate].
    intros H; inversion H; subst. exists [c], ps', s. repeat split; auto.
    now exists c.
  - cbn [match_here].
    assert (Hstop : forall s ps, option_map (cons []) (match_here r s) = Some ps ->
              exists x ps' s',
                ps = x :: ps' /\ s = x ++ s' /\ accepts (Star greedy p) x
                /\ match_here r s' = Some ps').
    { intros s0 ps0 H0. destruct (match_here r s0) as [ps'|] eqn:Hm; [|discriminate].
      inversion H0; subst. exists [], ps', s0. repeat split; auto. constructor. }
    assert (Hpush : forall c s ps l, p c = true -> push c l = Some ps ->
              (forall ps0, l = Some ps0 ->
                 exists x ps' s',
                   ps0 = x :: ps' /\ s = x ++ s' /\ accepts (Star greedy p) x
                   /\ match_here r s' = Some ps') ->
              exists x ps' s',
                ps = x :: ps' /\ c :: s = x ++ s' /\ accepts (Star greedy p) x
                /\ match_here r s' = Some ps').
    { intros c s0 ps0 l Hp Hl Hrec. destruct l as [ps1|]; [|discriminate].
      destruct (Hrec _ eq_refl) as (x & ps' & s' & -> & -> & Hx & Hm).
      inversion Hl; subst. exists (c :: x), ps', s'. repeat split; auto.
      constructor; assumption. }
    revert ps. induction s as [|c s IHs]; intros ps H.
    + now apply Hstop.
    + destruct (p c) eqn:Hp; [|now apply Hstop].
      destruct greedy.
      * match type of H with
        | match push c ?l with _ => _ end = _ => destruct (push c l) as [m|] eqn:Hl
        end.
        -- inversion H; subst. eapply Hpush; [exact Hp|exact Hl|].
           intros ps0 E. now apply IHs.
        -- now apply Hstop.
      * match type of H with
        | match ?x with _ => _ end = _ => destruct x as [m|] eqn:Hs
        end.
        -- inversion H; subst. now apply Hstop.
        -- eapply Hpush; [exact Hp|exact H|]. intros ps0 E. now apply IHs.
Qed.

(** A literal consumes itself. *)
Lemma match_here_literal (w : str) (r : list atom) (s : str) (ps : list str) :
  match_here (literal w ++ r) s = Some ps ->
  exists ps' s',
    ps = map (fun c => [c]) w ++ ps' /\ s = w ++ s' /\ match_here r s' = Some ps'.
Proof.
  revert s ps; induction w as [|c w IH]; intros s ps H.
  - now exists ps, s.
  - cbn [literal map app] in H.
    apply match_here_cons in H as (x & ps1 & s1 & -> & -> & (c' & -> & Hc) & Hm).
    apply char_eqb_eq in Hc; subst c'.
    apply IH in Hm as (ps' & s' & -> & -> & Hm). now exists ps', s'.
Qed.

(** A lazy star before a last character stops at the first character
    that can be the last one. *)
Lemma lazy_star_stops (p q : char -> bool) (s : str) (ps : list str) :
  match_here [Star false p; One q] s = Some ps ->
  exists x c s',
    ps = [x; [c]] /\ s = x ++ c :: s' /\ q c = true
    /\ Forall (fun a => p a = true /\ q a = false) x.
Proof.
  cbn [match_here]. revert ps. induction s as [|a s IH]; intros ps H.
  - discriminate.
  - destruct (q a) eqn:Hq.
    + assert (E : ps = [[]; [a]]) by (destruct (p a); now inversion H).
      subst ps. exists [], a, s. repeat split; auto.
    + destruct (p a) eqn:Hp; [|discriminate].
      cbn [option_map] in H.
      match type of H with push a ?l = _ => destruct l as [ps0|] eqn:E end;
        [|discriminate].
      destruct (IH _ E) as (x & c & s' & -> & -> & Hc & Hx).
      inversion H; subst. exists (a :: x), c, s'. repeat split; auto.
Qed.

(** Where the search finds its match. *)
Lemma search_from_hit (r : list atom) (s : str) (pos : nat) (m : match_obj) :
  search_from r s pos = Some m ->
  exists pre s',
    s = pre ++ s' /\ m_start m = pos + length pre
    /\ match_here r s' = Some (m_parts m)
    /\ forall k, k < length pre -> match_here r (skipn k s) = None.
Proof.
  revert pos; induction s as [|c s IH]; intros pos H; cbn [search_from] in H.
  - destruct (match_here r []) as [ps|] eqn:Hm; [|discriminate].
    inversion H; subst. exists [], []. repeat split; auto. intros k Hk; inversion Hk.
  - destruct (match_here r (c :: s)) as [ps|] eqn:Hm.
    + inversion H; subst. exists [], (c :: s). repeat split; auto.
      intros k Hk; inversion Hk.
    + destruct (IH _ H) as (pre & s' & -> & Hs & Hm' & Hfirst).
      exists (c :: pre), s'. repeat split; auto; [cbn; lia|].
      intros [|k] Hk; [exact Hm|]. cbn in *. apply Hfirst. lia.
Qed.

(** The value of a quoted field ([title], [description]). The block is
    some text, the key, white space, a quote, the captured value, a quote
    and the rest; the value holds no newline and no quote of either kind,
    so it ends at the first quote after the opening one; and no earlier
    place of the block matches. *)
Theorem quoted_field_value (key raw : str) (m : match_obj) :
  search (quoted_field_re key) raw = Some m ->
  exists pre ws q1 q2 post,
    raw = pre ++ key ++ ws ++ [q1] ++ group1 (quoted_field_re key) m ++ [q2] ++ post
    /\ Forall (fun c => isspace c = true) ws
    /\ is_quote q1 = true /\ is_quote q2 = true
    /\ Forall (fun c => c <> newline /\ is_quote c = false)
         (group1 (quoted_field_re key) m)
    /\ start1 (quoted_field_re key) m = length (pre ++ key ++ ws ++ [q1])
    /\ forall k, k < length pre ->
         match_here (atoms (quoted_field_re key)) (skipn k raw) = None.
Proof.
  intros H. apply search_from_hit in H as (pre & s0 & -> & Hs & Hm & Hfirst).
  unfold atoms, quoted_field_re in Hm. cbn [before group after] in Hm.
  rewrite <- app_assoc in Hm.
  apply match_here_literal in Hm as (ps1 & s1 & Hps & -> & Hm).
  cbn [app] in Hm.
  apply match_here_cons in Hm as (ws & ps2 & s2 & -> & -> & Hws & Hm).
  apply match_here_cons in Hm as (x & ps3 & s3 & -> & -> & (q1 & -> & Hq1) & Hm).
  apply lazy_star_stops in Hm as (g & q2 & post & -> & -> & Hq2 & Hg).
  assert (Hcat : concat (map (fun c : char => [c]) key) = key).
  { clear. induction key as [|c k IH]; [reflexivity|]. cbn. now rewrite IH. }
  assert (Hg1 : group1 (quoted_field_re key) m = g).
  { unfold group1, quoted_field_re. cbn [before group]. rewrite Hps.
    rewrite length_app. unfold literal. rewrite !length_map.
    rewrite skipn_app, skipn_all2 by (rewrite length_map; cbn; lia).
    rewrite !length_map. cbn [length].
    replace (length key + 2 - length key) with 2 by lia.
    cbn. apply app_nil_r. }
  exists pre, ws, q1, q2, post. rewrite Hg1.
  split; [reflexivity|]. split; [exact Hws|]. split; [exact Hq1|].
  split; [exact Hq2|]. split; [|split; [|exact Hfirst]].
  - eapply Forall_impl; [|exact Hg]. intros a [Ha Hq]. split; [|exact Hq].
    unfold dot in Ha. intros ->. now rewrite char_eqb_refl in Ha.
  - unfold start1, quoted_field_re. cbn [before]. rewrite Hps, Hs.
    rewrite length_app. unfold literal. rewrite !length_map. cbn [length].
    rewrite firstn_app, firstn_all2 by (rewrite length_map; lia).
    rewrite !length_map. replace (length key + 2 - length key) with 2 by lia.
    cbn [firstn]. rewrite concat_app, Hcat. cbn.
    repeat (rewrite ?app_nil_r, ?length_app; cbn [length app]). lia.
Qed.

Lemma field_patterns :
  title_re = quoted_field_re `"title:"
  /\ description_re = quoted_field_re `"description:".
Proof. split; reflexivity. Qed.

Lemma quoted_field_value_witness :
  exists pre ws q1 q2 post,
    block_apostrophe = pre ++ `"title:" ++ ws ++ [q1] ++ `"It" ++ [q2] ++ post
    /\ Forall (fun c => isspace c = true) ws
    /\ is_quote q1 = true /\ is_quote q2 = true
    /\ Forall (fun c => c <> newline /\ is_quote c = false) `"It"
    /\ 8 = length (pre ++ `"title:" ++ ws ++ [q1])
    /\ forall k, k < length pre ->
         match_here (atoms (quoted_field_re `"title:")) (skipn k block_apostrophe) = None.
Proof.
  eapply (quoted_field_value `"title:" block_apostrophe
            {| m_start := 0;
               m_parts := map (fun c => [c]) `"title:" ++ [`" "; [dquote]; `"It"; [squote]] |}).
  vm_compute. reflexivity.
Defined.

(** The value of the tags field. The block is some text, [tags:], white
    space, the captured literal and the rest; the literal is an opening
    bracket, a text without newline and without closing bracket, and a
    closing bracket, so it ends at the first closing bracket; it always
    passes the transcoder's own bracket test. *)
Theorem tags_value (raw : str) (m : match_obj) :
  search tags_re raw = Some m ->
  exists pre ws inner post,
    raw = pre ++ `"tags:" ++ ws ++ group1 tags_re m ++ post
    /\ group1 tags_re m = `"[" ++ inner ++ `"]"
    /\ Forall (fun c => isspace c = true) ws
    /\ Forall (fun c => c <> newline /\ c <> 93%N) inner
    /\ contains `"[" (group1 tags_re m) && contains `"]" (group1 tags_re m) = true.
Proof.
  intros H. apply search_from_hit in H as (pre & s0 & -> & Hs & Hm & _).
  change (atoms tags_re)
    with (literal `"tags:" ++ [Star true isspace; One (char_eqb 91%N);
                                Star false dot; One (char_eqb 93%N)]) in Hm.
  apply match_here_literal in Hm as (ps1 & s1 & Hps & -> & Hm).
  apply match_here_cons in Hm as (ws & ps2 & s2 & -> & -> & Hws & Hm).
  apply match_here_cons in Hm as (x & ps3 & s3 & -> & -> & (b & -> & Hb) & Hm).
  apply char_eqb_eq in Hb; subst b.
  apply lazy_star_stops in Hm as (inner & b & post & -> & -> & Hb & Hin).
  apply char_eqb_eq in Hb; subst b.
  assert (Hg : group1 tags_re m = `"[" ++ inner ++ `"]").
  { unfold group1. rewrite Hps. cbn. rewrite ?app_nil_r. reflexivity. }
  exists pre, ws, inner, post. rewrite Hg.
  split; [|split; [reflexivity|split; [exact Hws|split]]].
  - cbn. now rewrite <- !app_assoc.
  - eapply Forall_impl; [|exact Hin]. intros a [Ha Hq]. split.
    + unfold dot in Ha. intros ->. now rewrite char_eqb_refl in Ha.
    + intros ->. now rewrite char_eqb_refl in Hq.
  - apply andb_true_iff. split.
    + reflexivity.
    + unfold contains.
      destruct (find `"]" (`"[" ++ inner ++ `"]")) eqn:F; [reflexivity|].
      exfalso. apply (find_None _ _ F (length (`"[" ++ inner))).
      rewrite app_assoc.
      replace ((`"[" ++ inner) ++ `"]") with ((`"[" ++ inner) ++ `"]" ++ [])
        by now rewrite app_nil_r.
      apply occurs_at_app.
Qed.

Lemma tags_value_witness :
  exists pre ws inner post,
    block_nested_tags = pre ++ `"tags:" ++ ws ++ `"[['a']" ++ post
    /\ `"[['a']" = `"[" ++ inner ++ `"]"
    /\ Forall (fun c => isspace c = true) ws
    /\ Forall (fun c => c <> newline /\ c <> 93%N) inner
    /\ contains `"[" `"[['a']" && contains `"]" `"[['a']" = true.
Proof.
  eapply (tags_value block_nested_tags
            {| m_start := 0;
               m_parts := map (fun c => [c]) `"tags:" ++ [`" "; `"["; `"['a'"; `"]"] |}).
  vm_compute. reflexivity.
Defined.

(** A pattern that begins with a literal matches only where the literal
    occurs. *)
Lemma search_needs_literal (w : str) (r : list atom) (s : str) (pos : nat) (m : match_obj) :
  search_from (literal w ++ r) s pos = Some m -> contains w s = true.
Proof.
  intros H. apply search_from_hit in H as (pre & s0 & -> & _ & Hm & _).
  apply match_here_literal in Hm as (ps' & s' & _ & -> & _).
  unfold contains. destruct (find w (pre ++ w ++ s')) eqn:F; [reflexivity|].
  exfalso. apply (find_None _ _ F (length pre)). apply occurs_at_app.
Qed.

(** A block that holds none of the three keys is returned as it is: no
    model call is made and nothing is printed. *)
Theorem block_without_keys (ext : externals) (raw lang : str) (st : state) :
  contains `"title:" raw = false ->
  contains `"description:" raw = false ->
  contains `"tags:" raw = false ->
  _translate_frontmatter ext raw lang st = (Return raw, st).
Proof.
  intros H1 H2 H3.
  assert (S1 : search title_re raw = None).
  { destruct (search title_re raw) eqn:S; [|reflexivity].
    apply (search_needs_literal `"title:" [Star true isspace; One is_quote;
             Star false dot; One is_quote]) in S. congruence. }
  assert (S2 : search description_re raw = None).
  { destruct (search description_re raw) eqn:S; [|reflexivity].
    apply (search_needs_literal `"description:" [Star true isspace; One is_quote;
             Star false dot; One is_quote]) in S. congruence. }
  assert (S3 : search tags_re raw = None).
  { destruct (search tags_re raw) eqn:S; [|reflexivity].
    apply (search_needs_literal `"tags:" [Star true isspace; One (char_eqb 91%N);
             Star false dot; One (char_eqb 93%N)]) in S. congruence. }
  unfold _translate_frontmatter. rewrite S1, S2, S3. reflexivity.
Qed.

Lemma block_without_keys_witness :
  _translate_frontmatter (calm [] []) ([newline] ++ `"draft: false" ++ [newline]) `"EN" start
  = (Return ([newline] ++ `"draft: false" ++ [newline]), start).
Proof.
  apply block_without_keys; reflexivity.
Defined.

(* ================================================================== *)
(** * The title step *)
(* ================================================================== *)

(** Where a quoted field is found: at the leftmost place of the block
    where the key, white space and a quoted text follow each other,
    whatever stands before the key. *)
Lemma quoted_field_place (key raw : str) (m : match_obj) :
  search (quoted_field_re key) raw = Some m ->
  exists pre ws q1 q2 post,
    raw = pre ++ key ++ ws ++ [q1] ++ group1 (quoted_field_re key) m ++ [q2] ++ post
    /\ Forall (fun c => isspace c = true) ws
    /\ start1 (quoted_field_re key) m = length (pre ++ key ++ ws ++ [q1])
    /\ forall k, k < length pre ->
         match_here (atoms (quoted_field_re key)) (skipn k raw) = None.
Proof.
  intros H. apply search_from_hit in H as (pre & s0 & -> & Hs & Hm & Hfirst).
  unfold atoms, quoted_field_re in Hm. cbn [before group after] in Hm.
  rewrite <- app_assoc in Hm.
  apply match_here_literal in Hm as (ps1 & s1 & Hps & -> & Hm).
  cbn [app] in Hm.
  apply match_here_cons in Hm as (ws & ps2 & s2 & -> & -> & Hws & Hm).
  apply match_here_cons in Hm as (x & ps3 & s3 & -> & -> & (q1 & -> & Hq1) & Hm).
  apply lazy_star_stops in Hm as (g & q2 & post & -> & -> & Hq2 & Hg).
  assert (Hcat : concat (map (fun c : char => [c]) key) = key).
  { clear. induction key as [|c k IH]; [reflexivity|]. cbn. now rewrite IH. }
  exists pre, ws, q1, q2, post.
  split; [|split; [exact Hws|split; [|exact Hfirst]]].
  - do 4 f_equal. unfold group1, quoted_field_re. cbn [before group]. rewrite Hps.
    rewrite length_app. unfold literal. rewrite !length_map.
    rewrite skipn_app, skipn_all2 by (rewrite length_map; cbn; lia).
    rewrite !length_map. cbn [length].
    replace (length key + 2 - length key) with 2 by lia.
    cbn. now rewrite app_nil_r.
  - unfold start1, quoted_field_re. cbn [before]. rewrite Hps, Hs.
    rewrite length_app. unfold literal. rewrite !length_map. cbn [length].
    rewrite firstn_app, firstn_all2 by (rewrite length_map; lia).
    rewrite !length_map. replace (length key + 2 - length key) with 2 by lia.
    cbn [firstn]. rewrite concat_app, Hcat. cbn.
    repeat (rewrite ?app_nil_r, ?length_app; cbn [length app]). lia.
Qed.

(** C1, as the code has it. The field the code takes for the title is
    the leftmost place of the block where [title:], white space and a
    quoted text follow each other. When that text is in single quotes and
    the quoted text ['t'] occurs nowhere else in the block, the title step
    replaces exactly the raw value of that field by the translation and
    leaves every other character of the block as it was. The description
    and tags steps then work on this block; with neither field in it, it
    is what the transcoder returns. *)
Theorem title_spliced_once (ext : externals) (raw lang t' : str) (m : match_obj)
    (p : nat) (st st' : state) :
  search title_re raw = Some m ->
  let t := group1 title_re m in
  let g := start1 title_re m in
  find (quoted t) raw = Some p -> g = S p ->
  find (quoted t) (skipn (g + length t + 1) raw) = None ->
  _call_llm ext t lang true false st = (Return t', st') ->
  let spliced := firstn g raw ++ t' ++ skipn (g + length t) raw in
  (exists pre ws post,
     raw = pre ++ `"title:" ++ ws ++ quoted t ++ post
     /\ spliced = pre ++ `"title:" ++ ws ++ quoted t' ++ post
     /\ Forall (fun c => isspace c = true) ws
     /\ forall k, k < length pre -> match_here (atoms title_re) (skipn k raw) = None)
  /\ title_step ext raw lang raw st = (Return spliced, st')
  /\ _translate_frontmatter ext raw lang st
     = (n2 <- description_step ext raw lang spliced ;; tags_step ext raw lang n2) st'
  /\ (search description_re raw = None -> search tags_re raw = None ->
      _translate_frontmatter ext raw lang st = (Return spliced, st')).
Proof.
  intros Hm t g Hfind Hg Hrest Hcall spliced.
  destruct (quoted_field_place `"title:" raw m Hm)
    as (pre & ws & q1 & q2 & post & Hraw & Hws & Hstart & Hfirst).
  change (quoted_field_re `"title:") with title_re in Hraw, Hstart, Hfirst.
  fold t in Hraw. fold g in Hstart.
  set (a := pre ++ `"title:" ++ ws) in *.
  assert (Hraw' : raw = a ++ [q1] ++ t ++ [q2] ++ post).
  { subst a. now rewrite <- !app_assoc. }
  assert (Ha : length a = p).
  { subst a. rewrite Hg in Hstart. rewrite !length_app in Hstart.
    rewrite !length_app. cbn [length] in Hstart. lia. }
  pose proof (find_Some _ _ _ Hfind) as (Hocc & Hp & _).
  assert (Hq : raw = a ++ quoted t ++ post).
  { unfold occurs_at in Hocc. rewrite Hraw' in Hocc at 1.
    rewrite <- Ha in Hocc. rewrite skipn_app, skipn_all, Nat.sub_diag in Hocc.
    cbn [skipn app] in Hocc. apply startswith_split in Hocc.
    unfold quoted in Hocc. cbn [app] in Hocc. injection Hocc as Hq1 Htail.
    rewrite <- app_assoc in Htail. apply app_inv_head in Htail.
    cbn [app] in Htail. injection Htail as Hq2 _.
    rewrite Hraw'. unfold quoted. rewrite Hq1, Hq2. now rewrite <- !app_assoc. }
  assert (Hspliced : spliced = a ++ quoted t' ++ post).
  { subst spliced. rewrite Hg, <- Ha. rewrite Hq. apply splice_quoted. }
  assert (Hrep : replace (quoted t) (quoted t') raw = spliced).
  { rewrite Hspliced. rewrite Hq. apply replace_once; [discriminate| |].
    - rewrite <- Hq, Ha. exact Hfind.
    - replace post with (skipn (g + length t + 1) raw); [exact Hrest|].
      rewrite Hq at 1. rewrite Hg, <- Ha.
      replace (S (length a) + length t + 1) with (length (a ++ quoted t))
        by (unfold quoted; rewrite !length_app; cbn [length]; lia).
      rewrite app_assoc. rewrite skipn_app, skipn_all, Nat.sub_diag. reflexivity. }
  assert (Hstep : title_step ext raw lang raw st = (Return spliced, st')).
  { unfold title_step. rewrite Hm. fold t.
    erewrite bind_return by exact Hcall. unfold ret. now rewrite Hrep. }
  assert (Hall : _translate_frontmatter ext raw lang st
                 = (n2 <- description_step ext raw lang spliced ;;
                    tags_step ext raw lang n2) st').
  { rewrite transcoder_steps. now erewrite bind_return by exact Hstep. }
  split; [|split; [exact Hstep|split; [exact Hall|]]].
  - exists pre, ws, post. subst a. rewrite <- !app_assoc in Hq, Hspliced.
    split; [exact Hq|split; [exact Hspliced|split; [exact Hws|exact Hfirst]]].
  - intros Hdesc Htags. rewrite Hall.
    unfold description_step, tags_step. rewrite Hdesc, Htags. reflexivity.
Qed.

(** The end-to-end scenario: a title and a tags list, a model that
    translates the title and returns the tags as they are. *)
Lemma title_spliced_once_witness :
  fst (_translate_frontmatter glossary_hello block_hello_tags `"EN" start)
  = Return (`"title: 'Hi World'" ++ [newline] ++ `"tags: ['AI', 'Blog']" ++ [newline]).
Proof.
  eassert (Hm : search title_re block_hello_tags = Some _) by (vm_compute; reflexivity).
  match type of Hm with
  | _ = Some ?m =>
    eassert (Hcall : _call_llm glossary_hello (group1 title_re m) `"EN" true false start
                     = (Return _, _)) by (vm_compute; reflexivity);
    destruct (title_spliced_once glossary_hello block_hello_tags `"EN" _ m 7 start _
                Hm ltac:(vm_compute; reflexivity) ltac:(vm_compute; reflexivity)
                ltac:(vm_compute; reflexivity) Hcall) as (_ & _ & Hall & _)
  end.
  rewrite Hall. vm_compute. reflexivity.
Defined.

(** The pattern also matches at the end of a longer key. With a
    [subtitle] before the [title], the subtitle's value is what is sent
    to the model and replaced; the title is left as it is. *)
Lemma title_inside_longer_key :
  chat_inputs (trace (snd (_translate_frontmatter glossary block_subtitle `"EN" start)))
  = [(`"gemma2:9b", AI)]
  /\ fst (_translate_frontmatter glossary block_subtitle `"EN" start)
     = Return (`"subtitle: 'KI'" ++ [newline] ++ `"title: 'Blog'" ++ [newline]).
Proof. split; vm_compute; reflexivity. Qed.

(* ================================================================== *)
(** * More about the metrics sink *)
(* ================================================================== *)

(** The only failures that leave [log_inference] are an interrupt and
    what [rollback] raises: a failed connection attempt and a failed
    INSERT are caught. *)
Theorem sink_failures_that_escape (ext : externals)
    (model src tgt input output : str) (latency rate score : Q) (st : state) (e : exc) :
  fst (log_inference ext model src tgt input output latency rate score st) = Raise e ->
  e = KeyboardInterrupt \/ exists tr, conn_rollback ext tr = Raise e.
Proof.
  assert (Hins : forall s,
    fst (try_except
           (call (Insert {| model_name := model; source_lang := src;
                            target_lang := tgt; input_length := length input;
                            output_length := length output; latency_ms := latency;
                            tokens_per_sec := rate; similarity_score := score;
                            input_text := input; output_text := output |})
                 (conn_insert ext) ;;
            print [T `"   [DB Log] Saved: "; T model; T `" | "; F2 latency;
                   T `"ms | "; F2 rate; T `" TPS"])
           (fun e0 => print [T `"[Monitor Error] Failed to insert log: "; T e0] ;;
                      call Rollback (conn_rollback ext)) s) = Raise e ->
    e = KeyboardInterrupt \/ exists tr, conn_rollback ext tr = Raise e).
  { intros s. unfold try_except, bind, call, print, record. cbn [trace].
    destruct (conn_insert ext _) as [[]|[m|]]; cbn [fst].
    - discriminate.
    - intros H. right. eexists. exact H.
    - intros H. left. now inversion H. }
  unfold log_inference. unfold bind at 1, get_conn at 1.
  destruct (conn st); [apply Hins|].
  unfold bind at 1, _connect, try_except. unfold bind at 1, call at 1.
  destruct (psycopg2_connect ext _) as [[]|[m|]].
  - unfold set_conn, bind, get_conn. cbn [conn]. apply Hins.
  - unfold print, bind, get_conn, record. cbn [conn].
    destruct (conn st); [apply Hins|]. discriminate.
  - cbn [fst]. intros H. left. now inversion H.
Qed.

Lemma sink_failures_that_escape_witness :
  Exception `"connection already closed" = KeyboardInterrupt
  \/ exists tr, conn_rollback database_goes_away tr
                = Raise (Exception `"connection already closed").
Proof.
  apply (sink_failures_that_escape database_goes_away `"gemma2:9b" `"KO" `"EN"
           `"A" `"A" 1 50 (95 # 100) connected).
  vm_compute. reflexivity.
Defined.

Ltac new_events t :=
  lazymatch goal with
  | |- exists new, ?a :: ?b :: ?c :: t = _ /\ _ => exists [a; b; c]
  | |- exists new, ?a :: ?b :: t = _ /\ _ => exists [a; b]
  | |- exists new, ?a :: t = _ /\ _ => exists [a]
  | |- exists new, t = _ /\ _ => exists []
  | |- exists new, ?a :: ?b :: ?c :: _ :: t = _ => exists [a; b; c]
  | |- exists new, ?a :: ?b :: _ :: t = _ => exists [a; b]
  | |- exists new, ?a :: _ :: t = _ => exists [a]
  | |- exists new, _ :: t = _ => exists []
  end.

(** Once the monitor holds a connection it keeps it: [log_inference]
    never connects again and never drops [self.conn], whatever the INSERT
    and the rollback do. *)
Theorem sink_never_reconnects (ext : externals)
    (model src tgt input output : str) (latency rate score : Q) (st : state) :
  conn st = true ->
  let st' := snd (log_inference ext model src tgt input output latency rate score st) in
  conn st' = true
  /\ exists new, trace st' = new ++ trace st /\ ~ In Connect new.
Proof.
  intros Hc. unfold log_inference, try_except, bind, get_conn, call, print, ret, record.
  rewrite Hc. cbv beta iota. cbn [trace conn].
  destruct (conn_insert ext _) as [[]|[msg|]]; cbv beta iota; cbn [snd trace conn].
  - split; [exact Hc|]. new_events (trace st). split; [reflexivity|].
    cbn. intros [H|[H|[]]]; discriminate.
  - split; [exact Hc|]. new_events (trace st). split; [reflexivity|].
    cbn. intros [H|[H|[H|[]]]]; discriminate.
  - split; [exact Hc|]. new_events (trace st). split; [reflexivity|].
    cbn. intros [H|[]]; discriminate.
Qed.

Lemma sink_never_reconnects_witness :
  conn (snd (log_inference database_goes_away `"gemma2:9b" `"KO" `"EN" `"A" `"A"
               1 50 (95 # 100) connected)) = true
  /\ exists new,
       trace (snd (log_inference database_goes_away `"gemma2:9b" `"KO" `"EN" `"A" `"A"
                     1 50 (95 # 100) connected))
       = new ++ trace connected
       /\ ~ In Connect new.
Proof.
  apply sink_never_reconnects. reflexivity.
Defined.

(** A connection attempt that fails with an exception is swallowed: the
    error is printed, no INSERT is attempted, the call returns, and
    [self.conn] stays unset, so that the next call tries again. *)
Theorem failed_connection_is_swallowed (ext : externals)
    (model src tgt input output : str) (latency rate score : Q) (st : state) (msg : str) :
  conn st = false ->
  psycopg2_connect ext (Connect :: trace st) = Raise (Exception msg) ->
  let run := log_inference ext model src tgt input output latency rate score st in
  fst run = Return tt
  /\ conn (snd run) = false
  /\ trace (snd run)
     = Stdout [T `"[Monitor Error] DB Connection failed: "; T msg] :: Connect :: trace st
  /\ forall st2,
       conn st2 = false ->
       exists rest,
         trace (snd (log_inference ext model src tgt input output latency rate score st2))
         = rest ++ Connect :: trace st2.
Proof.
  intros Hc Hdown. cbv zeta.
  rewrite (sink_down_is_silent ext model src tgt input output latency rate score st msg Hc Hdown).
  cbn [fst snd trace conn]. repeat split.
  clear Hdown. intros st2 Hc2.
  unfold log_inference, _connect, try_except, bind, get_conn, set_conn, call, print,
    ret, record.
  rewrite Hc2. cbv beta iota. cbn [trace conn].
  destruct (psycopg2_connect ext _) as [[]|[m|]]; cbv beta iota; cbn [trace conn snd].
  - destruct (conn_insert ext _) as [[]|[m|]]; cbv beta iota; cbn [snd trace].
    + new_events (trace st2). reflexivity.
    + new_events (trace st2). reflexivity.
    + new_events (trace st2). reflexivity.
  - rewrite Hc2. cbv beta iota. cbn [snd trace]. new_events (trace st2). reflexivity.
  - cbn [snd trace]. new_events (trace st2). reflexivity.
Qed.

Lemma failed_connection_is_swallowed_witness :
  fst (log_inference (database_down (calm post [])) `"gemma2:9b" `"KO" `"EN" `"A" `"A"
         1 50 (95 # 100) start) = Return tt.
Proof.
  eapply (failed_connection_is_swallowed (database_down (calm post []))); reflexivity.
Defined.

(* ================================================================== *)
(** * The bookkeeping of the inference call *)
(* ================================================================== *)

Lemma log_inference_trace (ext : externals)
    (model src tgt input output : str) (latency rate score : Q) (s : state) :
  exists new,
    trace (snd (log_inference ext model src tgt input output latency rate score s))
    = new ++ trace s
    /\ (conn s = true ->
        In (Insert {| model_name := model; source_lang := src; target_lang := tgt;
                      input_length := length input; output_length := length output;
                      latency_ms := latency; tokens_per_sec := rate;
                      similarity_score := score;
                      input_text := input; output_text := output |}) new).
Proof.
  destruct (conn s) eqn:Hc.
  - unfold log_inference, try_except, bind, get_conn, call, print, ret, record.
    rewrite Hc. cbv beta iota. cbn [trace conn].
    destruct (conn_insert ext _) as [[]|[msg|]]; cbv beta iota; cbn [snd trace conn].
    + new_events (trace s). split; [reflexivity|]. intros _. right. now left.
    + new_events (trace s). split; [reflexivity|]. intros _. right. right. now left.
    + new_events (trace s). split; [reflexivity|]. intros _. now left.
  - destruct (emits_log_inference ext (fun _ => True) (fun _ _ => I)
                model src tgt input output latency rate score s) as (new & E & _).
    exists new. split; [exact E|discriminate].
Qed.

(** A call that returns has recorded itself and unloaded the model. The
    newest event is the unload of the model that answered, before it come
    the events of the metrics sink, and before those the request. With a
    connection held, the row handed to the INSERT names this model, KO and
    the target language, and carries the request text and the text that
    was returned (cleaned, not the raw reply), with their lengths. *)
Theorem call_llm_bookkeeping (ext : externals) (text lang : str)
    (is_metadata is_tags : bool) (st st' : state) (x : str) :
  _call_llm ext text lang is_metadata is_tags st = (Return x, st') ->
  exists sink banner,
    trace st'
    = Generate (model_name_for lang) :: sink
        ++ Clock
        :: Chat (model_name_for lang) (system_prompt_for lang is_metadata is_tags) text
        :: Clock :: Stdout banner :: trace st
    /\ (conn st = true ->
        exists row,
          In (Insert row) sink
          /\ model_name row = model_name_for lang
          /\ source_lang row = `"KO" /\ target_lang row = lang
          /\ input_text row = text /\ output_text row = x
          /\ input_length row = length text /\ output_length row = length x).
Proof.
  unfold _call_llm.
  unfold bind at 1, print at 1. unfold bind at 1, ask at 1.
  unfold bind at 1, call at 1.
  destruct (ollama_chat ext _) as [response|e]; [|discriminate].
  unfold bind at 1, ask at 1. unfold bind at 1.
  pose proof (emits_tps (fun _ => True) response) as Htps.
  match goal with
  | |- context [tps response ?s] =>
    destruct (Htps s) as (n0 & E0 & _); destruct (tps response s) as [[rate|e] s1] eqn:Etps
  end; [|discriminate].
  assert (Hs1 : trace s1 = trace (record Clock (record
            (Chat (model_name_for lang) (system_prompt_for lang is_metadata is_tags) text)
            (record Clock (record (Stdout
               [T `"   [Inference] "; T (model_name_for lang); T `" -> "; T lang;
                T `" ("; T (role_label is_metadata is_tags); T `")..."]) st))))
          /\ conn s1 = conn st).
  { match type of Etps with tps ?r ?s = _ => pose proof (tps_state r s) as Hst end.
    rewrite Etps in Hst. cbn [snd] in Hst. subst s1. split; reflexivity. }
  destruct Hs1 as [Ht1 Hc1]. clear E0 n0 Htps.
  unfold bind at 1.
  match goal with
  | |- context [log_inference ext ?a ?b ?c ?d ?e0 ?f ?g ?h s1] =>
    destruct (log_inference_trace ext a b c d e0 f g h s1) as (sink & Esink & Hrow);
    destruct (log_inference ext a b c d e0 f g h s1) as [[[]|e] s2]
  end; [|discriminate].
  unfold bind at 1, call at 1.
  destruct (ollama_generate ext _) as [[]|e]; [|discriminate].
  unfold ret. intros H. injection H as Hx Hst. subst st'.
  cbn [snd] in Esink. exists sink. eexists.
  split.
  - cbn [record trace]. rewrite Esink, Ht1. reflexivity.
  - intros Hc. rewrite Hc1 in Hrow. specialize (Hrow Hc).
    eexists. split; [exact Hrow|]. cbn. subst x. repeat split; reflexivity.
Qed.

Lemma call_llm_bookkeeping_witness :
  exists sink banner,
    trace (snd (_call_llm fencing `"['AI']" `"EN" false true connected))
    = Generate (model_name_for `"EN") :: sink
        ++ Clock
        :: Chat (model_name_for `"EN") (system_prompt_for `"EN" false true) `"['AI']"
        :: Clock :: Stdout banner :: trace connected
    /\ (conn connected = true ->
        exists row,
          In (Insert row) sink
          /\ model_name row = model_name_for `"EN"
          /\ source_lang row = `"KO" /\ target_lang row = `"EN"
          /\ input_text row = `"['AI']" /\ output_text row = `"['AI']"
          /\ input_length row = length `"['AI']" /\ output_length row = length `"['AI']").
Proof.
  apply (call_llm_bookkeeping fencing `"['AI']" `"EN" false true connected
           (snd (_call_llm fencing `"['AI']" `"EN" false true connected)) `"['AI']").
  apply injective_projections; [vm_compute; reflexivity|reflexivity].
Defined.

(* ================================================================== *)
(** * The throughput that is recorded *)
(* ================================================================== *)

(** With a connection held, the first thing [log_inference] does is hand
    its row to the INSERT. *)
Lemma log_inference_inserts (ext : externals)
    (model src tgt input output : str) (latency rate score : Q) (s : state) :
  conn s = true ->
  exists newer,
    trace (snd (log_inference ext model src tgt input output latency rate score s))
    = newer
        ++ Insert {| model_name := model; source_lang := src; target_lang := tgt;
                     input_length := length input; output_length := length output;
                     latency_ms := latency; tokens_per_sec := rate;
                     similarity_score := score;
                     input_text := input; output_text := output |}
        :: trace s.
Proof.
  intros Hc.
  unfold log_inference, try_except, bind, get_conn, call, print, ret, record.
  rewrite Hc. cbv beta iota. cbn [trace conn].
  destruct (conn_insert ext _) as [[]|[msg|]]; cbv beta iota; cbn [snd trace conn].
  - now exists [Stdout [T `"   [DB Log] Saved: "; T model; T `" | "; F2 latency;
                         T `"ms | "; F2 rate; T `" TPS"]].
  - now exists [Rollback; Stdout [T `"[Monitor Error] Failed to insert log: "; T msg]].
  - now exists [].
Qed.

(** An inference call from the reply on. *)
Lemma call_llm_after_reply (ext : externals) (text lang : str)
    (is_metadata is_tags : bool) (st : state) (r : response) :
  ollama_chat ext (requested text lang is_metadata is_tags (trace st)) = Return r ->
  exists start_time end_time result_text,
    _call_llm ext text lang is_metadata is_tags st
    = (rate <- tps r ;;
       log_inference ext (model_name_for lang) `"KO" lang text result_text
         ((end_time - start_time) * 1000)%Q rate (95 # 100) ;;
       call (Generate (model_name_for lang)) (ollama_generate ext) ;;
       ret result_text)
        {| trace := replied text lang is_metadata is_tags (trace st); conn := conn st |}.
Proof.
  intros Hr. unfold _call_llm.
  unfold bind at 1, print at 1. unfold bind at 1, ask at 1.
  unfold bind at 1, call at 1.
  unfold requested in Hr. unfold record. cbn [trace conn].
  rewrite Hr. unfold bind at 1, ask at 1. cbn [trace conn].
  eexists _, _, _. reflexivity.
Qed.

(** C10, on the code. Where the reply's counters are numbers, the
    throughput handed to the INSERT is what the claim says: exactly 0
    for a duration that is zero or negative, and [eval_count] divided by
    [eval_duration] in seconds otherwise (the quotient is taken over the
    rationals), with no division by zero. Where [eval_duration] reads
    [None], or [eval_count] does beside a positive duration, the default
    of [response.get] does not apply: the computation raises TypeError,
    the call ends there, and nothing is handed to the sink. *)
Theorem throughput_recorded (ext : externals) (text lang : str)
    (is_metadata is_tags : bool) (st : state) (r : response) :
  conn st = true ->
  ollama_chat ext (requested text lang is_metadata is_tags (trace st)) = Return r ->
  let run := _call_llm ext text lang is_metadata is_tags st in
  let heard := replied text lang is_metadata is_tags (trace st) in
  (forall d, eval_duration r = Some d -> (d <= 0)%Z ->
     exists row newer,
       trace (snd run) = newer ++ Insert row :: heard
       /\ tokens_per_sec row = 0%Q)
  /\ (forall d c, eval_duration r = Some d -> (0 < d)%Z -> eval_count r = Some c ->
        exists row newer,
          trace (snd run) = newer ++ Insert row :: heard
          /\ tokens_per_sec row = (inject_Z c / (inject_Z d / inject_Z (10 ^ 9)))%Q
          /\ (tokens_per_sec row == tokens_per_second r)%Q)
  /\ (eval_duration r = None
      \/ (eval_count r = None /\ exists d, eval_duration r = Some d /\ (0 < d)%Z) ->
      exists msg,
        fst run = Raise (Exception msg) /\ trace (snd run) = heard).
Proof.
  intros Hc Hr run heard.
  destruct (call_llm_after_reply ext text lang is_metadata is_tags st r Hr)
    as (t0 & t1 & x & Erun).
  set (s := {| trace := replied text lang is_metadata is_tags (trace st);
               conn := conn st |}) in Erun.
  assert (Hrow : forall rate, tps r s = (Return rate, s) ->
            exists row newer,
              trace (snd run) = newer ++ Insert row :: heard
              /\ tokens_per_sec row = rate).
  { intros rate Et. subst run. rewrite Erun. erewrite bind_return by exact Et.
    destruct (log_inference_inserts ext (model_name_for lang) `"KO" lang text x
                ((t1 - t0) * 1000)%Q rate (95 # 100) s Hc) as (newer & E).
    unfold bind at 1.
    destruct (log_inference ext (model_name_for lang) `"KO" lang text x
                ((t1 - t0) * 1000)%Q rate (95 # 100) s) as [[[]|e] s2]; cbn [snd] in E.
    - unfold bind, call, ret. 
      destruct (ollama_generate ext _) as [[]|e]; cbn [snd record trace];
        eexists _, (Generate (model_name_for lang) :: newer); rewrite E;
        split; reflexivity.
    - eexists _, newer. cbn [snd]. rewrite E. split; reflexivity. }
  split; [|split].
  - intros d E Hd. apply Hrow. now apply tps_without_duration with (d := d).
  - intros d c E Hd Ec.
    destruct (Hrow _ (tps_quotient r d c s E Hd Ec)) as (row & newer & Ht & Hq).
    exists row, newer. split; [exact Ht|split; [exact Hq|]].
    rewrite Hq. now apply quotient_is_tokens_per_second.
  - intros Hnone. destruct (tps_type_error r s Hnone) as (msg & Et).
    exists msg. subst run. rewrite Erun. erewrite bind_raise by exact Et.
    split; reflexivity.
Qed.

(** The reply without counters, on the code: the call raises TypeError
    after the reply, before anything is handed to the sink. *)
Lemma throughput_recorded_witness :
  exists msg,
    fst (_call_llm counters_unset `"Body" `"EN" false false connected)
    = Raise (Exception msg)
    /\ trace (snd (_call_llm counters_unset `"Body" `"EN" false false connected))
       = replied `"Body" `"EN" false false [].
Proof.
  apply (throughput_recorded counters_unset `"Body" `"EN" false false connected
           {| content := `"Body"; eval_duration := None; eval_count := None |}
           eq_refl eq_refl).
  left. reflexivity.
Defined.

(* ================================================================== *)
(** * The run as a whole *)
(* ================================================================== *)

Lemma process_files_cons (ext : externals) (file : Path) (files : list Path) (st : state) :
  process_files ext (file :: files) st
  = match process_file ext (to_str file) st with
    | (Return _, st') => process_files ext files st'
    | (Raise (Exception msg), st') =>
      process_files ext files
        (record (Stdout [T ([newline] ++ `"[ERROR] processing "); T (name file);
                         T `": "; T msg]) st')
    | (Raise KeyboardInterrupt, st') => (Raise KeyboardInterrupt, st')
    end.
Proof.
  unfold process_files at 1. cbn [for_each]. fold (process_files ext files).
  unfold bind at 1, try_except at 1.
  destruct (process_file ext (to_str file) st) as [[[]|[msg|]] st1]; reflexivity.
Qed.

Lemma process_files_outcome (ext : externals) (files : list Path) (st : state) :
  fst (process_files ext files st) = Return tt
  \/ fst (process_files ext files st) = Raise KeyboardInterrupt.
Proof.
  revert st; induction files as [|file files IH]; intros st; [now left|].
  rewrite process_files_cons.
  destruct (process_file ext (to_str file) st) as [[[]|[msg|]] st1].
  - apply IH.
  - apply IH.
  - now right.
Qed.

(** No failure of a file ends the run: whatever the model server, the
    database and the file system do, the loop over the files returns, or
    is ended by an interrupt; no other exception leaves it. *)
Theorem files_loop_absorbs_failures (ext : externals) (files : list Path)
    (st : state) :
  fst (process_files ext files st) = Return tt
  \/ fst (process_files ext files st) = Raise KeyboardInterrupt.
Proof.
  revert st; induction files as [|file files IH]; intros st; [now left|].
  rewrite process_files_cons.
  destruct (process_file ext (to_str file) st) as [[[]|[msg|]] st1].
  - apply IH.
  - apply IH.
  - now right.
Qed.

Lemma selection_returns (d : disk) (target : option str) (force last : bool) (st : state) :
  exists files st', get_files_to_process d target force last st = (Return files, st').
Proof.
  unfold get_files_to_process, bind, print, ret.
  destruct last.
  - destruct (get_latest_file d _); eauto.
  - destruct (is_file d _); [eauto|].
    destruct (is_dir d _); [|eauto]. destruct force; eauto.
Qed.

(** [main] ends normally unless closing the connection fails: when the
    first connection attempt is not interrupted and the selection reads
    the disk without an error, every failure of a file and an interrupt
    during the files are absorbed, the connection is closed if there is
    one, and the only exception that can leave [main] is the one [close]
    raised; otherwise the last line printed is the completion notice. *)
Theorem main_ends_normally (d : disk) (ext : externals) (target : option str)
    (force last : bool) (st : state) :
  psycopg2_connect ext (Connect :: trace st) <> Raise KeyboardInterrupt ->
  let run := main_from_args d ext target force last st in
  (fst run = Return tt
   /\ exists older,
        trace (snd run) = Stdout [T ([newline] ++ `"[INFO] Done.")] :: older)
  \/ (exists e older,
        fst run = Raise e
        /\ trace (snd run) = Close :: older
        /\ conn_close ext (Close :: older) = Raise e).
Proof.
  intros Hinit run.
  assert (H : forall r, r = run ->
              (exists older c,
                 r = (Return tt,
                      {| trace := Stdout [T ([newline] ++ `"[INFO] Done.")] :: older;
                         conn := c |}))
              \/ (exists e older c,
                    r = (Raise e, {| trace := Close :: older; conn := c |})
                    /\ conn_close ext (Close :: older) = Raise e)).
  { intros r Hr. subst run. unfold main_from_args in Hr. unfold bind at 1 in Hr.
    destruct (MLOpsMonitor_init ext st) as [[[]|e] s0] eqn:E0.
    2:{ exfalso. unfold MLOpsMonitor_init, _connect, bind, set_conn, try_except, call,
          print, record in E0. cbn [trace conn] in E0.
        destruct (psycopg2_connect ext (Connect :: trace st)) as [[]|[m|]];
          try discriminate. now apply Hinit. }
    unfold try_finally in Hr.
    match type of Hr with
    | context [try_interrupt ?b ?h s0] =>
      assert (Hbody : exists s1, try_interrupt b h s0 = (Return tt, s1))
    end.
    { unfold try_interrupt. unfold bind at 1.
      destruct (selection_returns d target force last s0) as (files & s1 & ->).
      destruct files as [|f files].
      - unfold print. eauto.
      - unfold bind at 1, print at 1.
        match goal with |- context [process_files ext ?l ?s] =>
          destruct (process_files_outcome ext l s) as [H|H];
          destruct (process_files ext l s) as [r0 s2] end;
          cbn [fst] in H; subst r0; unfold print; eauto. }
    destruct Hbody as (s1 & Eb). rewrite Eb in Hr.
    unfold close, bind, get_conn, call, print, ret, record in Hr. cbn [trace conn] in Hr.
    destruct (conn s1) eqn:Hc1; cbv beta iota in Hr.
    - destruct (conn_close ext (Close :: trace s1)) as [[]|e] eqn:Ec;
        cbv beta iota in Hr; cbn [trace conn] in Hr; subst r.
      + left. eexists _, _. reflexivity.
      + right. exists e, (trace s1), (conn s1). split; [reflexivity|exact Ec].
    - subst r. left. eexists _, _. reflexivity. }
  destruct (H run eq_refl) as [(older & c & E)|(e & older & c & E & Hc)];
    rewrite E; cbn [fst snd trace].
  - left. split; [reflexivity|]. now exists older.
  - right. exists e, older. auto.
Qed.

Lemma main_ends_normally_witness :
  (fst (main_from_args sample_disk (calm post []) (Some `"/blog") false false start)
   = Return tt
   /\ exists older,
        trace (snd (main_from_args sample_disk (calm post []) (Some `"/blog")
                      false false start))
        = Stdout [T ([newline] ++ `"[INFO] Done.")] :: older)
  \/ (exists e older,
        fst (main_from_args sample_disk (calm post []) (Some `"/blog") false false start)
        = Raise e
        /\ trace (snd (main_from_args sample_disk (calm post []) (Some `"/blog")
                         false false start))
           = Close :: older
        /\ conn_close (calm post []) (Close :: older) = Raise e).
Proof.
  apply main_ends_normally. discriminate.
Defined.

(** Processing a file stays within its scope: the only path it asks for
    and reads is the source file, the only files it writes are the two
    outputs derived from it, and its requests go to the two configured
    models. *)
Theorem process_file_scope (ext : externals) (file_path_str : str) :
  emits (in_file_scope (parse file_path_str)) (process_file ext file_path_str).
Proof.
  unfold process_file.
  assert (Hq : forall e, quiet e -> in_file_scope (parse file_path_str) e).
  { intros [] H; simpl in *; try contradiction; exact I. }
  apply emits_bind; [apply emits_ask; reflexivity|]. intros found.
  destruct (negb found); [apply emits_print; exact I|].
  apply emits_bind; [apply emits_print; exact I|]. intros _.
  apply emits_bind; [apply emits_call; reflexivity|]. intros content.
  destruct (split_frontmatter content) as [[frontmatter body] warn].
  apply emits_bind.
  { destruct warn; [apply emits_print; exact I|apply emits_ret]. }
  intros _. apply emits_for_each. intros lang [<-|[<-|[]]].
  - apply emits_translate_to; try exact Hq.
    + intros system user. left. reflexivity.
    + intros dir. exact I.
    + intros content0. left. reflexivity.
  - apply emits_translate_to; try exact Hq.
    + intros system user. right. reflexivity.
    + intros dir. exact I.
    + intros content0. right. reflexivity.
Qed.

(* ================================================================== *)
(** * More about the output path *)
(* ================================================================== *)

Lemma join_app (sep : str) (l r : list str) :
  l <> [] -> r <> [] -> join sep (l ++ r) = join sep l ++ sep ++ join sep r.
Proof.
  intros Hl Hr. induction l as [|x l IH]; [congruence|].
  destruct l as [|y l].
  - cbn [app]. now apply join_cons.
  - cbn [app] in *. rewrite (join_cons sep x) by discriminate.
    rewrite IH by discriminate. rewrite (join_cons sep x) by discriminate.
    now rewrite <- !app_assoc.
Qed.

Lemma to_str_parts (r : str) (l : list str) :
  l <> [] -> to_str {| root := r; parts := l |} = r ++ join SLASH l.
Proof.
  intros H. unfold to_str. cbn [root parts].
  destruct r, l; try reflexivity. now elim H.
Qed.

Lemma target_with_segment (path : Path) (lang : str) (i : nat) :
  find `"/ko/" (to_str path) = Some i ->
  target_path_str path lang
  = firstn i (to_str path) ++ (`"/" ++ lower lang ++ `"/")
      ++ replace `"/ko/" (`"/" ++ lower lang ++ `"/") (skipn (i + 4) (to_str path)).
Proof.
  intros F. unfold target_path_str, contains. rewrite F.
  now rewrite (replace_first _ _ _ i) by (discriminate || exact F).
Qed.

Lemma target_without_segment (file_path_str lang : str) :
  In lang LANGS ->
  contains `"/ko/" (to_str (parse file_path_str)) = false ->
  parts (parse file_path_str) <> [] ->
  target_path_str (parse file_path_str) lang
  = root (parse file_path_str)
      ++ join SLASH (removelast (parts (parse file_path_str))
                       ++ [lower lang; name (parse file_path_str)]).
Proof.
  intros Hlang Hno Hparts. unfold target_path_str. rewrite Hno.
  destruct (lang_code lang Hlang) as [Hl1 Hl2].
  destruct (parse_parts_clean file_path_str (name (parse file_path_str))) as [Hn1 Hn2].
  { apply last_in. exact Hparts. }
  destruct (parse_component _ Hn1 Hn2) as [Hn3 Hn4].
  unfold joinpath. fold SLASH. rewrite Hl1. cbn [parts root parent].
  rewrite Hn3, Hl2, Hn4. cbn [parts root]. rewrite <- app_assoc.
  apply to_str_parts. now destruct (removelast _).
Qed.

(** The output paths never collide: for a path that names a file, the
    path derived for EN and the one derived for JP differ from the source
    path and from each other, so a translation never overwrites its
    source or the other translation. *)
Theorem outputs_are_distinct (file_path_str : str) :
  let path := parse file_path_str in
  parts path <> [] ->
  target_path_str path `"EN" <> to_str path
  /\ target_path_str path `"JP" <> to_str path
  /\ target_path_str path `"EN" <> target_path_str path `"JP".
Proof.
  intros path Hparts. subst path.
  destruct (find `"/ko/" (to_str (parse file_path_str))) as [i|] eqn:F.
  - rewrite !(target_with_segment _ _ i F).
    pose proof (find_Some _ _ _ F) as (Ho & Hi & _).
    pose proof (occurs_at_split _ _ _ Ho Hi) as Hs.
    change (length `"/ko/") with 4 in Hs.
    repeat split; intros E.
    + rewrite Hs in E at 3. apply app_inv_head in E. discriminate E.
    + rewrite Hs in E at 3. apply app_inv_head in E. discriminate E.
    + apply app_inv_head in E. discriminate E.
  - assert (Hno : contains `"/ko/" (to_str (parse file_path_str)) = false)
      by (unfold contains; now rewrite F).
    rewrite !target_without_segment; auto; try (now left); try (right; now left).
    set (p := parse file_path_str) in *.
    assert (Hsrc : to_str p = root p ++ join SLASH (removelast (parts p) ++ [name p])).
    { unfold name. rewrite <- app_removelast_last by exact Hparts.
      destruct p as [r l]. cbn [root parts] in *. now apply to_str_parts. }
    rewrite Hsrc.
    assert (Hjoin : forall code,
      join SLASH (removelast (parts p) ++ [code; name p])
      = join SLASH (removelast (parts p) ++ [name p]) ->
      code ++ SLASH ++ name p = name p).
    { intros code E. destruct (removelast (parts p)) as [|x l] eqn:El.
      - exact E.
      - rewrite !join_app in E by discriminate.
        apply app_inv_head in E. apply app_inv_head in E. exact E. }
    assert (Hlen : forall code, code ++ SLASH ++ name p <> name p).
    { intros code E. apply (f_equal (@length char)) in E.
      rewrite !length_app in E. simpl in E. lia. }
    repeat split; intros E; apply app_inv_head in E.
    + now apply Hjoin, Hlen in E.
    + now apply Hjoin, Hlen in E.
    + destruct (removelast (parts p)) as [|x l].
      * discriminate E.
      * rewrite !join_app in E by discriminate.
        apply app_inv_head in E. apply app_inv_head in E. discriminate E.
Qed.

Lemma outputs_are_distinct_witness :
  target_path_str (parse note_path) `"EN" <> to_str (parse note_path)
  /\ target_path_str (parse note_path) `"JP" <> to_str (parse note_path)
  /\ target_path_str (parse note_path) `"EN" <> target_path_str (parse note_path) `"JP".
Proof.
  apply outputs_are_distinct. discriminate.
Defined.

(* ================================================================== *)
(** * Languages that are not configured *)
(* ================================================================== *)

(** A target language other than "EN" and "JP" (the codes are compared
    as written, so "en" is another language) gets the fallback model
    [gemma2:9b] and an empty base prompt: the system prompt is then the
    role's instruction alone. *)
Theorem unknown_language_falls_back (lang : str) :
  lang <> `"EN" -> lang <> `"JP" ->
  model_name_for lang = `"gemma2:9b"
  /\ system_prompt_for lang false false = []
  /\ system_prompt_for lang true false = METADATA_INSTRUCTION
  /\ system_prompt_for lang false true = TAGS_INSTRUCTION.
Proof.
  intros H1 H2.
  assert (E1 : str_eqb `"EN" lang = false).
  { destruct (str_eqb `"EN" lang) eqn:E; [|reflexivity].
    apply str_eqb_eq in E. congruence. }
  assert (E2 : str_eqb `"JP" lang = false).
  { destruct (str_eqb `"JP" lang) eqn:E; [|reflexivity].
    apply str_eqb_eq in E. congruence. }
  unfold model_name_for, system_prompt_for, MODELS, SYSTEM_PROMPTS.
  cbn [dict_get]. rewrite E1, E2. repeat split.
Qed.

Lemma unknown_language_falls_back_witness :
  model_name_for `"en" = `"gemma2:9b"
  /\ system_prompt_for `"en" false false = []
  /\ system_prompt_for `"en" true false = METADATA_INSTRUCTION
  /\ system_prompt_for `"en" false true = TAGS_INSTRUCTION.
Proof.
  apply unknown_language_falls_back; discriminate.
Defined.

(* ================================================================== *)
(** * Paths and their text *)
(* ================================================================== *)

Lemma find_char_none (c : char) (p : str) : find [c] p = None -> ~ In c p.
Proof.
  induction p as [|x p IH]; intros F; [intros []|].
  cbn [find startswith] in F. destruct (char_eqb c x) eqn:E; [discriminate|].
  cbn [andb] in F. destruct (find [c] p); [discriminate|].
  intros [->|H]; [now rewrite char_eqb_refl in E|now apply IH].
Qed.

Lemma find_char_first (c : char) (p rest : str) :
  ~ In c p -> find [c] (p ++ c :: rest) = Some (length p).
Proof.
  induction p as [|x p IH]; intros H.
  - cbn. now rewrite char_eqb_refl.
  - cbn [app find startswith]. destruct (char_eqb c x) eqn:E.
    + apply char_eqb_eq in E. subst. exfalso. apply H. now left.
    + cbn [andb]. rewrite IH; [reflexivity|]. intros Hin. apply H. now right.
Qed.

Lemma join_length_ge (sep : str) (l : list str) (x : str) :
  sep <> [] -> length l <= length (join sep (x :: l)).
Proof.
  intros Hsep. revert x; induction l as [|y l IH]; intros x; [cbn [length]; lia|].
  rewrite join_cons by discriminate. rewrite !length_app.
  specialize (IH y). destruct sep; [congruence|]. cbn [length] in *. lia.
Qed.

(** Splitting what was joined gives the parts back, when no part holds
    the separator. *)
Lemma split_join_char (c : char) (l : list str) (x : str) (fuel : nat) :
  Forall (fun p => find [c] p = None) (x :: l) -> length l <= fuel ->
  split [c] fuel (join [c] (x :: l)) = x :: l.
Proof.
  revert x fuel; induction l as [|y l IH]; intros x fuel Hall Hfuel.
  - inversion Hall; subst. cbn [join]. destruct fuel; cbn [split]; [reflexivity|].
    now rewrite H1.
  - inversion Hall; subst. destruct fuel as [|n]; [cbn in Hfuel; lia|].
    rewrite join_cons by discriminate. cbn [split app].
    rewrite find_char_first by now apply find_char_none.
    rewrite firstn_app, Nat.sub_diag, firstn_all. cbn [firstn]. rewrite app_nil_r.
    f_equal.
    replace (skipn (length x + length [c]) (x ++ c :: join [c] (y :: l)))
      with (join [c] (y :: l)).
    + apply IH; [exact H2|cbn in Hfuel; lia].
    + rewrite skipn_app, skipn_all2 by lia.
      replace (length x + length [c] - length x) with 1 by (cbn; lia). reflexivity.
Qed.

Lemma component_head (x : str) :
  is_component x = true -> find SLASH x = None ->
  exists a t, x = a :: t /\ a <> 47%N.
Proof.
  intros Hc F. destruct x as [|a t]; [discriminate|].
  exists a, t. split; [reflexivity|]. intros ->. discriminate F.
Qed.

Lemma join_cons_head (sep : str) (a : char) (u : str) (t : list str) :
  exists rest, join sep ((a :: u) :: t) = a :: rest.
Proof. destruct t; cbn; eauto. Qed.

Lemma filter_components (l : list str) :
  Forall (fun c => is_component c = true /\ find SLASH c = None) l ->
  filter is_component l = l.
Proof.
  induction l as [|x l IH]; intros H; [reflexivity|].
  inversion H as [|? ? [Hx _] Hl]; subst. cbn [filter]. now rewrite Hx, IH.
Qed.

Lemma char_neq (a : N) : a <> 47%N -> char_eqb 47%N a = false.
Proof.
  intros Ha. unfold char_eqb. destruct (N.eqb 47 a) eqn:E; [|reflexivity].
  apply N.eqb_eq in E. congruence.
Qed.

(** The root read back from a text that starts with the root and goes on
    with something other than a slash. *)
Lemma root_read_back (r : str) (a : N) (rest s : str) :
  r = [] \/ r = `"/" \/ r = `"//" -> a <> 47%N -> s = a :: rest ->
  root (parse (r ++ s)) = r.
Proof.
  intros Hr Ha ->. apply char_neq in Ha. unfold parse. cbn [root].
  change (lit "///") with [47%N; 47%N; 47%N].
  change (lit "//") with [47%N; 47%N].
  change (lit "/") with [47%N].
  destruct Hr as [Hr | [Hr | Hr]]; subst r.
  - cbn [startswith app]. rewrite Ha. reflexivity.
  - change (lit "/") with [47%N].
    cbn [startswith app]. rewrite !char_eqb_refl, Ha. reflexivity.
  - change (lit "//") with [47%N; 47%N].
    cbn [startswith app]. rewrite !char_eqb_refl, Ha. reflexivity.
Qed.

Lemma parts_read_back (pre l : list str) (s : str) :
  Forall (fun c => find SLASH c = None) pre ->
  Forall (fun c => is_component c = true /\ find SLASH c = None) l ->
  pre ++ l <> [] -> s = join SLASH (pre ++ l) ->
  parts (parse s) = filter is_component pre ++ l.
Proof.
  intros Hpre Hl Hne ->. unfold parse. cbn [parts].
  destruct (pre ++ l) as [|x t] eqn:E; [congruence|].
  unfold SLASH. change (lit "/") with [47%N].
  rewrite split_join_char.
  - change [47%N] with SLASH. rewrite <- E, filter_app.
    now rewrite (filter_components l).
  - rewrite <- E. apply Forall_app. split; [assumption|].
    eapply Forall_impl; [|exact Hl]. now intros c [_ H].
  - apply join_length_ge. discriminate.
Qed.

Lemma path_eq (p q : Path) : root p = root q -> parts p = parts q -> p = q.
Proof. destruct p, q. cbn. now intros -> ->. Qed.

(** The text of a path parses back to the path. *)
Lemma parse_to_str (p : Path) : well_formed p -> parse (to_str p) = p.
Proof.
  destruct p as [r l]. intros [Hr Hl]. cbn [root parts] in *.
  destruct l as [|x t].
  - destruct Hr as [Hr | [Hr | Hr]]; subst r; reflexivity.
  - assert (E : to_str {| root := r; parts := x :: t |}
                = r ++ join SLASH (x :: t)).
    { unfold to_str. cbn [root parts]. now destruct r. }
    rewrite E. apply path_eq; cbn [root parts].
    + inversion Hl as [|? ? [Hx Fx] _]; subst.
      destruct (component_head x Hx Fx) as (a & u & -> & Ha).
      destruct (join_cons_head SLASH a u t) as [rest Erest].
      exact (root_read_back r a rest _ Hr Ha Erest).
    + destruct Hr as [Hr | [Hr | Hr]]; subst r.
      * apply (parts_read_back [] (x :: t)); [constructor|exact Hl|discriminate|reflexivity].
      * apply (parts_read_back [[]] (x :: t));
          [repeat constructor|exact Hl|discriminate|].
        reflexivity.
      * apply (parts_read_back [[]; []] (x :: t));
          [repeat constructor|exact Hl|discriminate|].
        reflexivity.
Qed.

(* ================================================================== *)
(** * File selection *)
(* ================================================================== *)

Lemma max_by_spec {A : Type} (key : A -> Q) (rest pre mid : list A) (best : A) :
  (forall x, In x pre -> (key x < key best)%Q) ->
  (forall x, In x mid -> (key x <= key best)%Q) ->
  exists l1 l2,
    pre ++ best :: mid ++ rest = l1 ++ max_by key best rest :: l2
    /\ (forall x, In x l1 -> (key x < key (max_by key best rest))%Q)
    /\ (forall x, In x l2 -> (key x <= key (max_by key best rest))%Q).
Proof.
  revert pre mid best; induction rest as [|x rest IH]; intros pre mid best Hpre Hmid.
  - exists pre, mid. rewrite app_nil_r. auto.
  - cbn [max_by]. destruct (Qle_bool (key x) (key best)) eqn:E.
    + apply Qle_bool_iff in E.
      destruct (IH pre (mid ++ [x]) best Hpre) as (l1 & l2 & H1 & H2 & H3).
      { intros y Hy. apply in_app_or in Hy as [Hy|[<-|[]]]; auto. }
      exists l1, l2. rewrite <- H1, <- app_assoc. auto.
    + assert (Hlt : (key best < key x)%Q).
      { apply Qnot_le_lt. intros H. apply Qle_bool_iff in H. congruence. }
      destruct (IH (pre ++ best :: mid) [] x) as (l1 & l2 & H1 & H2 & H3).
      { intros y Hy. apply in_app_or in Hy as [Hy|[<-|Hy]].
        - eapply Qlt_trans; [apply Hpre, Hy|exact Hlt].
        - exact Hlt.
        - eapply Qle_lt_trans; [apply Hmid, Hy|exact Hlt]. }
      { intros y []. }
      exists l1, l2. rewrite <- H1, <- app_assoc. auto.
Qed.

(** With [--last], the selection is the most recently modified file of
    the scan of the default directory, whatever target and [--force] were
    given: every file before it in the scan is strictly older, no file
    after it is newer; an empty scan selects nothing. *)
Theorem last_mode_selects_newest (d : disk) (target : option str) (force : bool)
    (st : state) (files : list Path) :
  fst (get_files_to_process d target force true st) = Return files ->
  let scan := rglob_mdx d (resolve d (DEFAULT_BLOG_PATH d)) in
  (scan = [] /\ files = [])
  \/ exists latest older rest,
       files = [latest] /\ scan = older ++ latest :: rest
       /\ (forall f, In f older -> (getmtime d f < getmtime d latest)%Q)
       /\ (forall f, In f rest -> (getmtime d f <= getmtime d latest)%Q).
Proof.
  unfold get_files_to_process, get_latest_file, bind, print, ret.
  intros H. cbv zeta.
  destruct (rglob_mdx d (resolve d (DEFAULT_BLOG_PATH d))) as [|first rest].
  - left. cbn [fst] in H. split; [reflexivity|]. now inversion H.
  - right. cbn [fst] in H. inversion H; subst.
    destruct (max_by_spec (getmtime d) rest [] [] first) as (l1 & l2 & H1 & H2 & H3);
      try (intros x []).
    exists (max_by (getmtime d) first rest), l1, l2. auto.
Qed.

Lemma last_mode_selects_newest_witness :
  (rglob_mdx sample_disk (resolve sample_disk (DEFAULT_BLOG_PATH sample_disk)) = []
   /\ [second_post] = [])
  \/ exists latest older rest,
       [second_post] = [latest]
       /\ rglob_mdx sample_disk (resolve sample_disk (DEFAULT_BLOG_PATH sample_disk))
          = older ++ latest :: rest
       /\ (forall f, In f older -> (getmtime sample_disk f < getmtime sample_disk latest)%Q)
       /\ (forall f, In f rest -> (getmtime sample_disk f <= getmtime sample_disk latest)%Q).
Proof.
  apply (last_mode_selects_newest sample_disk (Some `"/elsewhere") true start).
  reflexivity.
Defined.

(** Without [--force], the scan of a directory selects a post exactly when
    an output that processing it would write is missing: for a file under
    a [/ko/] directory, the two paths whose existence is tested are the
    two output paths that [process_file], called with the text of the
    file's path, computes. A file that is not under a [/ko/] directory is
    tested against itself, so it is never selected while it exists,
    whatever translations it has. *)
Theorem scan_selects_untranslated (d : disk) (file : Path) :
  well_formed file ->
  (contains `"/ko/" (to_str file) = true ->
   untranslated d file
   = negb (on_disk d (parse (target_path_str (parse (to_str file)) `"EN")))
     || negb (on_disk d (parse (target_path_str (parse (to_str file)) `"JP"))))
  /\
  (contains `"/ko/" (to_str file) = false ->
   on_disk d (parse (to_str file)) = true ->
   untranslated d file = false
   /\ forall target st files,
        fst (get_files_to_process d target false false st) = Return files ->
        In file files -> is_file d file = true /\ files = [file]).
Proof.
  intros Hwf. split.
  - intros Hko. rewrite (parse_to_str file Hwf).
    unfold untranslated, target_path_str. rewrite Hko. reflexivity.
  - intros Hno Hex.
    assert (F : find `"/ko/" (to_str file) = None).
    { unfold contains in Hno. now destruct (find `"/ko/" (to_str file)). }
    assert (Hu : untranslated d file = false).
    { unfold untranslated. rewrite !replace_absent by exact F. now rewrite Hex. }
    split; [exact Hu|].
    intros target st files. unfold get_files_to_process, bind, print, ret.
    set (target_path := match target with
                        | Some (c :: s) => _
                        | _ => _
                        end).
    destruct (is_file d target_path) eqn:Hf; cbn [fst].
    + intros H Hin. inversion H; subst. destruct Hin as [<-|[]]. auto.
    + destruct (is_dir d target_path); cbn [fst]; intros H Hin; inversion H; subst.
      * apply filter_In in Hin as [_ Hin]. congruence.
      * destruct Hin.
Qed.

Lemma well_formed_parse (s : str) :
  (root (parse s) = [] \/ root (parse s) = `"/" \/ root (parse s) = `"//")
  /\ forallb (fun c => is_component c && negb (contains SLASH c)) (parts (parse s))
     = true ->
  well_formed (parse s).
Proof.
  intros [Hr Hp]. split; [exact Hr|]. apply Forall_forall. intros c Hc.
  rewrite forallb_forall in Hp. specialize (Hp c Hc).
  apply andb_true_iff in Hp as [H1 H2]. split; [exact H1|].
  unfold contains in H2. now destruct (find SLASH c).
Qed.

Lemma scan_selects_untranslated_witness :
  untranslated sample_disk first_post
  = negb (on_disk sample_disk
            (parse (target_path_str (parse (to_str first_post)) `"EN")))
    || negb (on_disk sample_disk
               (parse (target_path_str (parse (to_str first_post)) `"JP")))
  /\ untranslated sample_disk stray_note = false
  /\ fst (get_files_to_process sample_disk (Some `"/blog") false false start)
     = Return [first_post].
Proof.
  assert (W1 : well_formed first_post).
  { apply well_formed_parse. split; [right; left; reflexivity|reflexivity]. }
  assert (W2 : well_formed stray_note).
  { apply well_formed_parse. split; [right; left; reflexivity|reflexivity]. }
  destruct (scan_selects_untranslated sample_disk first_post W1) as [H1 _].
  destruct (scan_selects_untranslated sample_disk stray_note W2) as [_ H2].
  split; [apply H1; reflexivity|].
  split; [apply H2; reflexivity|]. reflexivity.
Defined.

(** With [--force] the scan of a directory keeps every file; without it,
    the selection is a part of what [--force] would select. *)
Theorem force_selects_more (d : disk) (target : option str) (st : state)
    (files forced : list Path) :
  fst (get_files_to_process d target false false st) = Return files ->
  fst (get_files_to_process d target true false st) = Return forced ->
  incl files forced
  /\ (forall file, In file forced -> ~ In file files -> untranslated d file = false).
Proof.
  unfold get_files_to_process, bind, print, ret.
  set (target_path := match target with
                      | Some (c :: s) => _
                      | _ => _
                      end).
  destruct (is_file d target_path); cbn [fst].
  - intros H1 H2. inversion H1; inversion H2; subst. split; [apply incl_refl|].
    intros file H Hn. contradiction.
  - destruct (is_dir d target_path); cbn [fst]; intros H1 H2;
      inversion H1; inversion H2; subst.
    + split; [apply incl_filter|].
      intros file H Hn. destruct (untranslated d file) eqn:E; [|reflexivity].
      exfalso. apply Hn. apply filter_In. now split.
    + split; [apply incl_refl|]. intros file [].
Qed.

Lemma force_selects_more_witness :
  incl [first_post] [first_post; second_post; stray_note]
  /\ (forall file, In file [first_post; second_post; stray_note] ->
        ~ In file [first_post] -> untranslated sample_disk file = false).
Proof.
  apply (force_selects_more sample_disk (Some `"/blog") start); reflexivity.
Defined.

(* ================================================================== *)
(** * What a round sends and writes *)
(* ================================================================== *)

Lemma chat_inputs_app (a b : list event) :
  chat_inputs (a ++ b) = chat_inputs a ++ chat_inputs b.
Proof. apply flat_map_app. Qed.

Lemma chat_inputs_quiet (new : list event) : Forall quiet new -> chat_inputs new = [].
Proof.
  induction 1 as [|e new He _ IH]; [reflexivity|].
  destruct e; simpl in *; try contradiction; exact IH.
Qed.

(** An inference call sends its text, once, whether it returns or not. *)
Lemma call_llm_one_input (ext : externals) (text lang : str) (is_metadata is_tags : bool)
    (st : state) :
  chat_inputs (trace (snd (_call_llm ext text lang is_metadata is_tags st)))
  = (model_name_for lang, text) :: chat_inputs (trace st).
Proof.
  unfold _call_llm.
  unfold bind at 1, print at 1. unfold bind at 1, ask at 1.
  unfold bind at 1, call at 1.
  destruct (ollama_chat ext _) as [response|e]; [|reflexivity].
  match goal with
  | |- context [snd (?m ?s)] =>
    assert (E : emits quiet m);
      [|destruct (E s) as (new & -> & Hq)]
  end.
  { repeat first [apply emits_log_inference | apply emits_tps | emits_step];
      auto; exact I. }
  rewrite chat_inputs_app, (chat_inputs_quiet _ Hq). reflexivity.
Qed.

(** When the transcoder returns, the texts it sent to the model are the
    captured fields of the block it was given (not of the block as the
    earlier steps rewrote it): one request each, for the model of the
    target language, in the order title, description, tags. *)
Theorem transcoder_requests (ext : externals) (raw lang : str) (st st' : state) (out : str) :
  _translate_frontmatter ext raw lang st = (Return out, st') ->
  chat_inputs (trace st')
  = rev (map (pair (model_name_for lang)) (captured_fields raw))
      ++ chat_inputs (trace st).
Proof.
  assert (Hcall : forall text md tg s x s',
            _call_llm ext text lang md tg s = (Return x, s') ->
            chat_inputs (trace s') = (model_name_for lang, text) :: chat_inputs (trace s)).
  { intros text md tg s x s' H.
    pose proof (call_llm_one_input ext text lang md tg s) as E. now rewrite H in E. }
  rewrite transcoder_steps. unfold bind.
  destruct (title_step ext raw lang raw st) as [[n1|e] s1] eqn:E1; [|discriminate].
  destruct (description_step ext raw lang n1 s1) as [[n2|e] s2] eqn:E2; [|discriminate].
  intros E3. unfold captured_fields.
  assert (H1 : chat_inputs (trace s1)
               = rev (map (pair (model_name_for lang))
                        match search title_re raw with
                        | Some m => [group1 title_re m]
                        | None => []
                        end) ++ chat_inputs (trace st)).
  { unfold title_step in E1. destruct (search title_re raw) as [m|].
    - unfold bind in E1.
      destruct (_call_llm ext _ lang true false st) as [[x|e] s] eqn:C; [|discriminate].
      apply Hcall in C. unfold ret in E1. injection E1 as _ <-. exact C.
    - unfold ret in E1. now injection E1 as _ <-. }
  assert (H2 : chat_inputs (trace s2)
               = rev (map (pair (model_name_for lang))
                        match search description_re raw with
                        | Some m => [group1 description_re m]
                        | None => []
                        end) ++ chat_inputs (trace s1)).
  { unfold description_step in E2. destruct (search description_re raw) as [m|].
    - unfold bind in E2.
      destruct (_call_llm ext _ lang true false s1) as [[x|e] s] eqn:C; [|discriminate].
      apply Hcall in C. unfold ret in E2. injection E2 as _ <-. exact C.
    - unfold ret in E2. now injection E2 as _ <-. }
  assert (H3 : chat_inputs (trace st')
               = rev (map (pair (model_name_for lang))
                        match search tags_re raw with
                        | Some m => [group1 tags_re m]
                        | None => []
                        end) ++ chat_inputs (trace s2)).
  { unfold tags_step in E3. destruct (search tags_re raw) as [m|].
    - unfold bind in E3.
      destruct (_call_llm ext _ lang false true s2) as [[x|e] s] eqn:C; [|discriminate].
      apply Hcall in C. destruct (contains _ x && contains _ x).
      + unfold ret in E3. injection E3 as _ <-. exact C.
      + unfold print, ret in E3. injection E3 as _ <-. exact C.
    - unfold ret in E3. now injection E3 as _ <-. }
  rewrite H3, H2, H1, !map_app, !rev_app_distr, <- !app_assoc. reflexivity.
Qed.

Lemma transcoder_requests_witness :
  chat_inputs (trace (snd (_translate_frontmatter glossary_bad_tags block_title_tags
                             `"EN" start)))
  = rev (map (pair (model_name_for `"EN")) (captured_fields block_title_tags))
      ++ chat_inputs (trace start).
Proof.
  apply (transcoder_requests glossary_bad_tags block_title_tags `"EN" start
           (snd (_translate_frontmatter glossary_bad_tags block_title_tags `"EN" start))
           (`"title: 'KI'" ++ [newline] ++ `"tags: ['KI']" ++ [newline])).
  apply injective_projections; [vm_compute; reflexivity|reflexivity].
Defined.





